(** * GridLines: tick-interval selection and grid-line layout

    A shallow embedding of
    [trulens_eval/react_components/record_viewer/src/GridLines.tsx]
    and the properties of its layout computation.

    The component receives two JavaScript numbers, [totalWidth] (pixels) and
    [totalTime] (milliseconds), chooses a tick interval from [TIME_OPTIONS]
    and returns one guide line and one label per tick.

    Numbers.  A JavaScript [number] is modelled by the type [number] below:
    a finite value carries an exact rational, and the three special values
    [Infinity], [-Infinity] and [NaN] are kept, with the arithmetic the
    language gives them (division by zero, comparisons with [NaN], ...).
    Finite arithmetic is exact: the rounding of IEEE-754 binary64, overflow,
    underflow and the sign of zero are not part of this model, and neither
    is the limit an engine puts on [.fill(undefined)] (line 35).  It carries
    the properties that rounding cannot change.

    Module [IEEE] evaluates the same expressions on binary64 values: the
    selection of the interval (lines 14 to 19) is stated there for every
    pair of binary64 inputs.

    Module [B64] is the computation with every quotient, product and sum
    rounded, for any rounding function with the properties of binary64
    rounding to nearest, and with the engine's array limit as a parameter:
    the properties of the rendered lines (how many, where, how wide the
    columns) are stated there.

    Module [Assistant] embeds the polling method of the assistant example
    notebook. *)

From Stdlib Require Import ZArith QArith Qround List Bool String Lia Lqa.
From Stdlib Require Import Sorted Floats Qabs Qpower.
Import ListNotations.

Local Open Scope Z_scope.
Local Open Scope Q_scope.

(** ** JavaScript numbers *)

Inductive number : Type :=
| Fin (q : Q)
| PosInf
| NegInf
| NaN.

Declare Scope num_scope.
Delimit Scope num_scope with num.
Bind Scope num_scope with number.

Definition Qltb (a b : Q) : bool :=
  match a ?= b with Lt => true | _ => false end.

(** [x / y] *)
Definition num_div (x y : number) : number :=
  match x, y with
  | NaN, _ | _, NaN => NaN
  | Fin a, Fin b =>
      if Qeq_bool b 0 then
        match a ?= 0 with Gt => PosInf | Lt => NegInf | Eq => NaN end
      else Fin (a / b)
  | Fin _, _ => Fin 0
  | PosInf, Fin b => if Qltb b 0 then NegInf else PosInf
  | NegInf, Fin b => if Qltb b 0 then PosInf else NegInf
  | _, _ => NaN
  end.

(** [x * y] *)
Definition num_mul (x y : number) : number :=
  match x, y with
  | NaN, _ | _, NaN => NaN
  | Fin a, Fin b => Fin (a * b)
  | Fin a, PosInf | PosInf, Fin a =>
      match a ?= 0 with Gt => PosInf | Lt => NegInf | Eq => NaN end
  | Fin a, NegInf | NegInf, Fin a =>
      match a ?= 0 with Gt => NegInf | Lt => PosInf | Eq => NaN end
  | PosInf, PosInf | NegInf, NegInf => PosInf
  | PosInf, NegInf | NegInf, PosInf => NegInf
  end.

(** [x + y] *)
Definition num_add (x y : number) : number :=
  match x, y with
  | NaN, _ | _, NaN => NaN
  | Fin a, Fin b => Fin (a + b)
  | PosInf, NegInf | NegInf, PosInf => NaN
  | PosInf, _ | Fin _, PosInf => PosInf
  | NegInf, _ | Fin _, NegInf => NegInf
  end.

(** [x < y]: false as soon as one side is [NaN]. *)
Definition num_lt (x y : number) : bool :=
  match x, y with
  | NaN, _ | _, NaN => false
  | Fin a, Fin b => Qltb a b
  | NegInf, NegInf | PosInf, _ => false
  | NegInf, _ | Fin _, PosInf => true
  | Fin _, NegInf => false
  end.

(** [x <= y] *)
Definition num_le (x y : number) : bool :=
  match x, y with
  | NaN, _ | _, NaN => false
  | Fin a, Fin b => Qle_bool a b
  | NegInf, _ | Fin _, PosInf | PosInf, PosInf => true
  | PosInf, _ | Fin _, NegInf => false
  end.

Infix "/" := num_div : num_scope.
Infix "*" := num_mul : num_scope.
Infix "+" := num_add : num_scope.
Infix "<?" := num_lt : num_scope.
Infix "<=?" := num_le : num_scope.

(** [Math.floor] *)
Definition Math_floor (x : number) : number :=
  match x with
  | Fin q => Fin (inject_Z (Qfloor q))
  | _ => x
  end.

(** The number a non-negative array index stands for. *)
Definition of_nat (i : nat) : number := Fin (inject_Z (Z.of_nat i)).

(** [x] is the finite number of value [q]. *)
Definition is_fin (x : number) (q : Q) : Prop :=
  exists q', x = Fin q' /\ q' == q.

Definition is_NaN (x : number) : bool :=
  match x with NaN => true | _ => false end.

(** ** Arrays and exceptions *)

Inductive exn : Type := RangeError.

Inductive result (A : Type) : Type :=
| Ok (a : A)
| Throw (e : exn).
Arguments Ok {A} a.
Arguments Throw {A} e.

(** The largest length an array may have, 2^32 - 1. *)
Definition MAX_ARRAY_LENGTH : Z := 4294967295.

(** [Array(len)] with a numeric argument: the length of the new array, or a
    [RangeError] ("Invalid array length") unless [len] is an integer in
    0 .. 2^32 - 1. *)
Definition Array (len : number) : result nat :=
  match len with
  | Fin q =>
      let n := Qfloor q in
      if Qeq_bool q (inject_Z n) && (0 <=? n)%Z && (n <=? MAX_ARRAY_LENGTH)%Z
      then Ok (Z.to_nat n)
      else Throw RangeError
  | _ => Throw RangeError
  end.

(** [arr.findIndex(p)]: the index of the first element that satisfies [p],
    or -1. *)
Fixpoint findIndex_from {A : Type} (p : A -> bool) (arr : list A) (i : Z) : Z :=
  match arr with
  | [] => (-1)%Z
  | x :: rest => if p x then i else findIndex_from p rest (i + 1)%Z
  end.

Definition findIndex {A : Type} (p : A -> bool) (arr : list A) : Z :=
  findIndex_from p arr 0%Z.

(** [arr[i]] on an array of numbers; outside the array the language gives
    [undefined], which arithmetic reads as [NaN]. *)
Definition get (arr : list number) (i : Z) : number :=
  if (i <? 0)%Z then NaN else nth (Z.to_nat i) arr NaN.

(** ** The component *)

Record GridLinesProps : Type := mkProps {
  totalWidth : number;
  totalTime : number
}.

Definition MIN_WIDTH : number := Fin 100.

Definition SECOND : number := Fin 1000.
Definition MINUTE : number := (Fin 60 * SECOND)%num.

Definition TIME_OPTIONS : list number :=
  [Fin 100; Fin 500; Fin 1 * SECOND; Fin 5 * SECOND; Fin 10 * SECOND;
   Fin 30 * SECOND; MINUTE]%num.

(** One iteration of the rendering loop: the guide line (a [div]) and its
    label (a [span]) with the properties the code computes. *)
Record Tick : Type := mkTick {
  key : number;
  line_minHeight : Z;
  line_left : number;
  label_left : number;
  label_children : number * string
}.

(** The constants of the function body, lines 14 to 21, each as a function
    of the two props: [width] is [totalWidth] and [time] is [totalTime]. *)
Section Layout.
Variables (width time : number).

Definition maxCols : number := Math_floor (width / MIN_WIDTH).

Definition timeOptionCols : list number :=
  map (fun timeOption => Math_floor (time / timeOption)) TIME_OPTIONS.

Definition timeOptionIndex : Z :=
  findIndex (fun c => c <? maxCols)%num timeOptionCols.

Definition timeOption : number :=
  if negb (timeOptionIndex =? -1)%Z then get TIME_OPTIONS timeOptionIndex
  else Fin 1.

Definition numCols : number := Math_floor (time / timeOption).

Definition widthPerCol : number := ((timeOption / time) * width)%num.

(** The body of [.map((_c, i) => ...)]. *)
Definition tick (i : nat) : Tick :=
  {| key := of_nat i;
     line_minHeight := 20;
     line_left := ((of_nat i + Fin 1) * widthPerCol)%num;
     label_left := ((of_nat i + Fin 1) * widthPerCol + Fin 4)%num;
     label_children := (((of_nat i + Fin 1) * timeOption)%num, "ms"%string) |}.

(** Lines 34 to 60: the children of the returned [div], or the exception
    [Array(numCols)] throws. *)
Definition children : result (list Tick) :=
  match Array numCols with
  | Ok n => Ok (map tick (seq 0 n))
  | Throw e => Throw e
  end.
End Layout.

Definition GridLines (props : GridLinesProps) : result (list Tick) :=
  children (totalWidth props) (totalTime props).

(** ** The same computation on binary64 values

    Lines 14 to 21 and 46 of the source once more, on the kernel's binary64
    floating-point numbers, whose [/], [*], [+] and [<] are those of
    JavaScript.  This is what the code computes bit for bit; it is used
    where the rounding of a product or a quotient decides a claim. *)

Module IEEE.
Local Open Scope float_scope.

Definition two52 : float := 4503599627370496.

(** [Math.floor].  Zeros, [NaN], the infinities and every value of
    magnitude 2^52 or more are their own floor.  Below 2^52, adding and
    subtracting 2^52 rounds to a neighbouring integer [r], and the floor
    is [r] or [r - 1]. *)
Definition Math_floor (x : float) : float :=
  if (x =? 0) || negb (abs x <? two52) then x
  else
    let r := if x <? 0 then (x - two52) + two52 else (x + two52) - two52 in
    if x <? r then r - 1 else r.

Definition MIN_WIDTH : float := 100.

Definition SECOND : float := 1000.
Definition MINUTE : float := 60 * SECOND.

Definition TIME_OPTIONS : list float :=
  [100; 500; 1 * SECOND; 5 * SECOND; 10 * SECOND; 30 * SECOND; MINUTE].

Definition get (arr : list float) (i : Z) : float :=
  if (i <? 0)%Z then nan else nth (Z.to_nat i) arr nan.

Section Layout.
Variables (width time : float).

Definition maxCols : float := Math_floor (width / MIN_WIDTH).

Definition timeOptionCols : list float :=
  map (fun timeOption => Math_floor (time / timeOption)) TIME_OPTIONS.

Definition timeOptionIndex : Z :=
  findIndex (fun c => c <? maxCols) timeOptionCols.

Definition timeOption : float :=
  if negb (timeOptionIndex =? -1)%Z then get TIME_OPTIONS timeOptionIndex
  else 1.

Definition numCols : float := Math_floor (time / timeOption).

Definition widthPerCol : float := (timeOption / time) * width.

(** [left] of the guide line of index [i] (counted from 0). *)
Definition line_left (i : float) : float := (i + 1) * widthPerCol.
End Layout.
End IEEE.

(** The exact value of a finite binary64 number. *)
Definition float_value (x : float) : option Q :=
  match Prim2SF x with
  | S754_zero _ => Some 0
  | S754_finite s m e =>
      let v := match e with
               | Z0 => inject_Z (Zpos m)
               | Zpos p => inject_Z (Zpos m * 2 ^ Zpos p)
               | Zneg p => Zpos m # (2 ^ p)%positive
               end in
      Some (Qred (if s then - v else v))
  | _ => None
  end.

(** The test of line 18 for the option [t], on binary64 values. *)
Definition fits64 (W T t : float) : bool :=
  (IEEE.Math_floor (T / t) <? IEEE.Math_floor (W / IEEE.MIN_WIDTH))%float.

(** ** The computation under binary64 rounding

    A third reading of the component, for the properties that depend on how
    much a quotient or a product is rounded.  Numbers are rationals again,
    but every [/], [*] and [+] rounds its exact result with a rounding
    function [rnd], and overflows to an infinity from
    2^1024 - 2^970 on.  The rounding function is any function with the
    properties binary64 rounding to nearest has: it is monotone and odd, it
    leaves the integers up to 2^53 as they are, and below the overflow
    threshold it moves a number [x] by at most 2^-53 * x + 2^-1075.
    [round64] below is that rounding (to nearest, ties to even), and
    [binary64] shows that it has these properties.
    [Math.floor], the comparisons and [Array] are exact, as they are in the
    language.  The sign of zero is not represented.

    Line 35, [.fill(undefined)], writes every element of the new array; an
    engine can hold arrays of up to [engine_max] elements only and throws a
    [RangeError] beyond (V8: "Invalid array length").  [engine_max] is a
    parameter of the rendering. *)

Definition u64 : Q := 1 # (2 ^ 53)%positive.
Definition eta64 : Q := 1 # (2 ^ 1075)%positive.
Definition OVERFLOW : Q := inject_Z (2 ^ 1024 - 2 ^ 970).

Record rounding : Type := {
  rnd : Q -> Q;
  rnd_mono : forall x y, x <= y -> rnd x <= rnd y;
  rnd_opp : forall x, rnd (- x) == - rnd x;
  rnd_int : forall z : Z, (Z.abs z <= 2 ^ 53)%Z ->
            rnd (inject_Z z) == inject_Z z;
  rnd_accurate : forall x, 0 <= x -> x < OVERFLOW ->
                 x - (u64 * x + eta64) <= rnd x /\
                 rnd x <= x + (u64 * x + eta64)
}.

(** The smallest normal number, 2^-1022, and the relative error 2^-52 that
    covers the rounding of every number from there to the overflow
    threshold. *)
Definition MIN_NORMAL : Q := 1 # (2 ^ 1022)%positive.
Definition two_u64 : Q := 1 # (2 ^ 52)%positive.

(** The relative error 2^-50 that covers the roundings of one line offset,
    and the widths 2^-990 and 2^1022 between which underflow and overflow
    add nothing to it. *)
Definition slack64 : Q := 1 # (2 ^ 50)%positive.
Definition tiny_width : Q := 1 # (2 ^ 990)%positive.
Definition huge_width : Q := inject_Z (2 ^ 1022).

(** The largest binary64 number below [MIN_WIDTH], 100 - 2^-46. *)
Definition below_MIN_WIDTH : Q := 100 - (1 # (2 ^ 46)%positive).

(** [x] is a value the rounding leaves as it is: a binary64 number. *)
Definition representable (R : rounding) (x : Q) : Prop := rnd R x == x.

(** *** Rounding to the nearest binary64 number

    The rounding of the language, as a function on the rationals. *)

(** The binary exponent of a positive rational [x]: the [e] with
    2^e <= x < 2^(e+1). *)
Definition Qexp2 (x : Q) : Z :=
  let e0 := (Z.log2 (Qnum x) - Z.log2 (Zpos (Qden x)))%Z in
  if Qltb x (2 ^ e0)%Q then (e0 - 1)%Z else e0.

(** The spacing of the binary64 numbers around a positive [x]: 53
    significant bits, and 2^-1074 below the smallest normal number. *)
Definition ulp64 (x : Q) : Q := 2 ^ (Z.max (Qexp2 x) (-1022) - 52).

(** The nearest integer, ties to even. *)
Definition round_even (q : Q) : Z :=
  let f := Qfloor q in
  match (q - inject_Z f ?= 1 # 2)%Q with
  | Lt => f
  | Gt => (f + 1)%Z
  | Eq => if Z.even f then f else (f + 1)%Z
  end.

Definition round_pos (x : Q) : Q :=
  inject_Z (round_even (x / ulp64 x)) * ulp64 x.

(** Round to nearest, ties to even, without the overflow to an infinity
    (that is [rfin] below). *)
Definition round64 (x : Q) : Q :=
  match Qnum x with
  | Z0 => 0
  | Zpos _ => round_pos x
  | Zneg _ => - round_pos (- x)
  end.

(** Numbers of the same value. *)
Definition num_eq (x y : number) : Prop :=
  match x, y with
  | Fin a, Fin b => a == b
  | PosInf, PosInf | NegInf, NegInf | NaN, NaN => True
  | _, _ => False
  end.

(** The binary64 value [x] and the number [y] are the same value. *)
Definition same_value (x : float) (y : number) : Prop :=
  match y with
  | Fin q => match float_value x with Some v => v == q | None => False end
  | PosInf => x = infinity
  | NegInf => x = neg_infinity
  | NaN => PrimFloat.is_nan x = true
  end.

Module B64.
Section Rounded.
Variable R : rounding.

(** The number an operation with exact result [x] returns. *)
Definition rfin (x : Q) : number :=
  if Qle_bool OVERFLOW (Qabs x)
  then (if Qltb x 0 then NegInf else PosInf)
  else Fin (rnd R x).

Definition rdiv (x y : number) : number :=
  match x, y with
  | Fin a, Fin b => if Qeq_bool b 0 then num_div x y else rfin (a / b)
  | _, _ => num_div x y
  end.

Definition rmul (x y : number) : number :=
  match x, y with
  | Fin a, Fin b => rfin (a * b)
  | _, _ => num_mul x y
  end.

Definition radd (x y : number) : number :=
  match x, y with
  | Fin a, Fin b => rfin (a + b)
  | _, _ => num_add x y
  end.

Variables (width time : number).

Definition maxCols : number := Math_floor (rdiv width MIN_WIDTH).

(** The products of line 11 are integers the rounding leaves as they are:
    the table is [TIME_OPTIONS] as above. *)
Definition timeOptionCols : list number :=
  map (fun timeOption => Math_floor (rdiv time timeOption)) TIME_OPTIONS.

(** The test of line 18 for one option. *)
Definition fits (timeOption : number) : bool :=
  (Math_floor (rdiv time timeOption) <? maxCols)%num.

Definition timeOptionIndex : Z :=
  findIndex (fun c => c <? maxCols)%num timeOptionCols.

Definition timeOption : number :=
  if negb (timeOptionIndex =? -1)%Z then get TIME_OPTIONS timeOptionIndex
  else Fin 1.

Definition numCols : number := Math_floor (rdiv time timeOption).

Definition widthPerCol : number := rmul (rdiv timeOption time) width.

Definition tick (i : nat) : Tick :=
  {| key := of_nat i;
     line_minHeight := 20;
     line_left := rmul (radd (of_nat i) (Fin 1)) widthPerCol;
     label_left := radd (rmul (radd (of_nat i) (Fin 1)) widthPerCol) (Fin 4);
     label_children :=
       (rmul (radd (of_nat i) (Fin 1)) timeOption, "ms"%string) |}.

Variable engine_max : Z.

(** [.fill(undefined)] on a new array of [n] elements. *)
Definition fill (n : nat) : result nat :=
  if (Z.of_nat n <=? engine_max)%Z then Ok n else Throw RangeError.

(** Lines 34 to 60. *)
Definition children : result (list Tick) :=
  match Array numCols with
  | Ok n =>
      match fill n with
      | Ok m => Ok (map tick (seq 0 m))
      | Throw e => Throw e
      end
  | Throw e => Throw e
  end.
End Rounded.

Definition GridLines (R : rounding) (engine_max : Z) (props : GridLinesProps)
  : result (list Tick) :=
  children R (totalWidth props) (totalTime props) engine_max.
End B64.

(** The rounded computation with rounding [R] and the binary64 evaluation
    give the same values at the inputs [w] and [t], of values [W] and [T]:
    the same constants of the function body, and the same offsets for the
    lines of index 0 to 4. *)
Definition agree (R : rounding) (w t : float) (W T : Q) : Prop :=
  let line i x :=
    same_value (IEEE.line_left w t x)
      (line_left (B64.tick R (Fin W) (Fin T) i)) in
  float_value w = Some W /\ float_value t = Some T /\
  same_value (IEEE.maxCols w) (B64.maxCols R (Fin W)) /\
  same_value (IEEE.timeOption w t) (B64.timeOption R (Fin W) (Fin T)) /\
  same_value (IEEE.numCols w t) (B64.numCols R (Fin W) (Fin T)) /\
  same_value (IEEE.widthPerCol w t) (B64.widthPerCol R (Fin W) (Fin T)) /\
  line 0%nat 0%float /\ line 1%nat 1%float /\ line 2%nat 2%float /\
  line 3%nat 3%float /\ line 4%nat 4%float.

(** ** The selection, as the specification words it *)

(** The option list as rationals, in ascending order. *)
Definition OPTIONS : list Q := [100; 500; 1000; 5000; 10000; 30000; 60000].

(** "the candidate column count of [t] is strictly less than maxCols" *)
Definition fits (W T t : Q) : bool :=
  (Qfloor (T / t) <? Qfloor (W / 100))%Z.


(** ** The assistant example: [retrieve_and_generate]

    The method [RAG_with_OpenAI_Assistant.retrieve_and_generate] of the
    notebook [examples/expositional/frameworks/openai_assistants/
    openai_assistants_api.ipynb] creates a run, polls it once a second while
    its status is queued, in_progress or cancelling, and then reads the
    answer and the quoted source from the newest message.

    The service is outside the program: [Service] records what it answers
    during one call of the method.  The polling loop has no bound of its
    own, so the embedding takes a number of loop iterations it may run
    (fuel) and answers [Polling] when they are used up with the loop still
    waiting.  Content blocks are text blocks and annotations are file
    citations, the shapes the attribute accesses of the method expect.
    Every call to the service is taken to answer; the [instrument]
    decorator, which records the call, and the attributes [self.thread] and
    [self.message] the method sets on the way are left out. *)

Module Assistant.

Inductive exn : Type := IndexError | UnboundLocalError.

Inductive outcome (A : Type) : Type :=
| Returns (a : A)
| Raises (e : exn)
| Polling.
Arguments Returns {A} a.
Arguments Raises {A} e.
Arguments Polling {A}.

Record FileCitation : Type := { quote : string }.
Record Annotation : Type := { file_citation : FileCitation }.
Record Text : Type := { value : string; annotations : list Annotation }.
Record Content : Type := { text : Text }.
Record Message : Type := { content : list Content }.

Record Service : Type := {
  (** the status of the run [runs.create] returns *)
  created : string;
  (** the status of the run the k-th call of [runs.retrieve] returns,
      counted from 0 *)
  retrieved : nat -> string;
  (** [messages.list(...).data] *)
  data : list Message
}.

(** The status of the run after [k] calls of [runs.retrieve]. *)
Definition status_at (svc : Service) (k : nat) : string :=
  match k with
  | O => created svc
  | S j => retrieved svc j
  end.

Definition WAITING : list string :=
  ["queued"; "in_progress"; "cancelling"]%string.

(** [s in l] on a list of strings *)
Definition is_in (s : string) (l : list string) : bool :=
  existsb (String.eqb s) l.

(** The [while] loop: the status it ends on and the number of times it
    slept and retrieved the run; [None] when the fuel is used up. *)
Fixpoint wait (fuel : nat) (svc : Service) (calls : nat) (status : string)
  : option (string * nat) :=
  match fuel with
  | O => if is_in status WAITING then None else Some (status, calls)
  | S fuel' =>
      if is_in status WAITING
      then wait fuel' svc (S calls) (retrieved svc calls)
      else Some (status, calls)
  end.

(** [l[0]] *)
Definition item0 {A : Type} (l : list A) : exn + A :=
  match l with
  | [] => inl IndexError
  | x :: _ => inr x
  end.

(** The local variables the [if] statement assigns. *)
Record locals : Type := {
  response : option string;
  quote_ : option string
}.

Definition UNABLE : string := "Unable to retrieve information at this time.".

(** The [if run.status == 'completed': ... else: ...] statement. *)
Definition branch (status : string) (svc : Service) : exn + locals :=
  if (status =? "completed")%string then
    match item0 (data svc) with
    | inl e => inl e
    | inr m =>
        match item0 (content m) with
        | inl e => inl e
        | inr c =>
            let response := value (text c) in
            match item0 (annotations (text c)) with
            | inl e => inl e
            | inr a =>
                inr {| response := Some response;
                       quote_ := Some (quote (file_citation a)) |}
            end
        end
    end
  else inr {| response := Some UNABLE; quote_ := None |}.

(** Reading a local variable: an [UnboundLocalError] when no assignment was
    executed. *)
Definition load (v : option string) : exn + string :=
  match v with
  | Some s => inr s
  | None => inl UnboundLocalError
  end.

(** [return response, quote] *)
Definition return_ (l : locals) : outcome (string * string) :=
  match load (response l) with
  | inl e => Raises e
  | inr r =>
      match load (quote_ l) with
      | inl e => Raises e
      | inr q => Returns (r, q)
      end
  end.

Definition retrieve_and_generate (fuel : nat) (svc : Service) (query : string)
  : outcome (string * string) :=
  match wait fuel svc 0 (created svc) with
  | None => Polling
  | Some (status, _) =>
      match branch status svc with
      | inl e => Raises e
      | inr l => return_ l
      end
  end.

(** The run is in a waiting status after [k] retrievals. *)
Definition waiting_at (svc : Service) (k : nat) : Prop :=
  is_in (status_at svc k) WAITING = true.

(** The run leaves the waiting statuses after exactly [n] retrievals. *)
Definition settles_at (svc : Service) (n : nat) : Prop :=
  (forall k, (k < n)%nat -> waiting_at svc k) /\
  is_in (status_at svc n) WAITING = false.

End Assistant.

(** ** Numbers: basic facts *)

Lemma Qltb_lt (a b : Q) : Qltb a b = true <-> a < b.
Proof.
  unfold Qltb. rewrite Qlt_alt. destruct (a ?= b); intuition congruence.
Qed.

Lemma Qltb_inject_Z (x y : Z) : Qltb (inject_Z x) (inject_Z y) = (x <? y)%Z.
Proof.
  unfold Qltb, Qcompare, Z.ltb. simpl. now rewrite !Z.mul_1_r.
Qed.

Lemma Qeq_bool_false (a b : Q) : ~ a == b -> Qeq_bool a b = false.
Proof.
  intros H. apply not_true_iff_false. now rewrite Qeq_bool_iff.
Qed.


Lemma num_lt_floor (a b : Q) :
  (Math_floor (Fin a) <? Math_floor (Fin b))%num = (Qfloor a <? Qfloor b)%Z.
Proof. apply Qltb_inject_Z. Qed.

Lemma TIME_OPTIONS_eq : TIME_OPTIONS = map Fin OPTIONS.
Proof. reflexivity. Qed.



(** ** Selection: the code computes [first_fit] *)


(** ** [find]: the element found is the first that satisfies the test *)

Section Find.
Context {A : Type} (f : A -> bool).

Lemma find_first (l : list A) (x : A) :
  find f l = Some x ->
  exists before after,
    l = before ++ x :: after /\ f x = true /\
    forall u, In u before -> f u = false.
Proof.
  induction l as [| a l IH]; simpl; [discriminate |].
  destruct (f a) eqn:Ha.
  - intros [= <-]. exists [], l. repeat split; trivial. intros u [].
  - intros H. destruct (IH H) as (before & after & -> & Hx & Hb).
    exists (a :: before), after. repeat split; trivial.
    intros u [<- | Hu]; auto.
Qed.

Lemma find_at (before after : list A) (x : A) :
  f x = true -> (forall u, In u before -> f u = false) ->
  find f (before ++ x :: after) = Some x.
Proof.
  intros Hx. induction before as [| a before IH]; simpl; intros Hb.
  - now rewrite Hx.
  - rewrite (Hb a) by now left. apply IH. intros u Hu. apply Hb. now right.
Qed.

Lemma find_nowhere (l : list A) :
  (forall u, In u l -> f u = false) -> find f l = None.
Proof.
  induction l as [| a l IH]; simpl; intros H; [reflexivity |].
  rewrite (H a) by now left. apply IH. intros u Hu. apply H. now right.
Qed.
End Find.




Lemma Qpos_neq0 (t : Q) : 0 < t -> ~ t == 0.
Proof. intros H E. rewrite E in H. discriminate H. Qed.



(** ** Monotonicity in the width *)







(** ** Rendering *)

Lemma Array_ok (n : Z) :
  (0 <= n <= MAX_ARRAY_LENGTH)%Z ->
  Array (Fin (inject_Z n)) = Ok (Z.to_nat n).
Proof.
  intros [H0 H1]. unfold Array. rewrite Qfloor_Z.
  rewrite (proj2 (Qeq_bool_iff _ _) (Qeq_refl _)).
  apply Z.leb_le in H0, H1. now rewrite H0, H1.
Qed.

Lemma Array_negative (n : Z) :
  (n < 0)%Z -> Array (Fin (inject_Z n)) = Throw RangeError.
Proof.
  intros H. unfold Array. rewrite Qfloor_Z.
  apply Z.leb_gt in H. rewrite H. now rewrite andb_false_r.
Qed.

Lemma Array_too_long (n : Z) :
  (MAX_ARRAY_LENGTH < n)%Z -> Array (Fin (inject_Z n)) = Throw RangeError.
Proof.
  intros H. unfold Array. rewrite Qfloor_Z.
  apply Z.leb_gt in H. rewrite H. now rewrite andb_false_r.
Qed.



Lemma nth_error_ticks (f : nat -> Tick) (n j : nat) :
  (j < n)%nat -> nth_error (map f (seq 0 n)) j = Some (f j).
Proof.
  intros H. rewrite nth_error_map, nth_error_seq.
  apply Nat.ltb_lt in H. now rewrite H.
Qed.

Lemma Qfloor_neg (x : Q) : x < 0 -> (Qfloor x < 0)%Z.
Proof.
  intros H. rewrite Zlt_Qlt.
  apply Qle_lt_trans with (2 := H). apply Qfloor_le.
Qed.

Lemma Qfloor_nonneg (x : Q) : 0 <= x -> (0 <= Qfloor x)%Z.
Proof. intros H. apply (Qfloor_resp_le 0 x H). Qed.

Lemma Qdiv_nonneg (a t : Q) : 0 < t -> 0 <= a -> 0 <= a / t.
Proof.
  intros Ht Ha. apply Qle_shift_div_l; [exact Ht |]. now rewrite Qmult_0_l.
Qed.

(** C5.  For totalWidth = 500 and totalTime = 0 the component renders zero
    columns: it does not throw, and no rendered element has a NaN position
    (there is none).  The interval 100 is selected, numCols is 0, and the
    column width, 100 / 0 * 500 = Infinity, is used nowhere. *)
Theorem C5_zero_time :
  GridLines (mkProps (Fin 500) (Fin 0)) = Ok [] /\
  timeOption (Fin 500) (Fin 0) = Fin 100 /\
  numCols (Fin 500) (Fin 0) = Fin 0 /\
  widthPerCol (Fin 500) (Fin 0) = PosInf /\
  (forall ticks,
      GridLines (mkProps (Fin 500) (Fin 0)) = Ok ticks ->
      Forall (fun k => is_NaN (line_left k) = false /\
                       is_NaN (label_left k) = false) ticks).
Proof.
  repeat split; try reflexivity.
  intros ticks [= <-]. constructor.
Qed.

(** C6, as stated, fails both ways: a negative [totalTime] makes the
    component throw, and a negative [totalWidth] with a positive [totalTime]
    renders columns. *)
Lemma C6_counterexample :
  GridLines (mkProps (Fin 500) (Fin (-1000))) = Throw RangeError /\
  numCols (Fin 500) (Fin (-1000)) = Fin (-10) /\
  (exists ticks,
      GridLines (mkProps (Fin (-500)) (Fin 3)) = Ok ticks /\
      List.length ticks = 3%nat).
Proof.
  repeat split. eexists. split; reflexivity.
Qed.

(** The fields of the tick of index [j] (counted from 0). *)
Section Ticks.
Variables (W T t : Q).
Hypothesis HT : 0 < T.
Hypothesis E : timeOption (Fin W) (Fin T) = Fin t.

End Ticks.

(** C7, as stated, fails where the column count reaches 2^32: for
    totalWidth = 50 and totalTime = 4294967296 the interval is the fallback
    1, numCols is 4294967296 and [Array(numCols)] throws. *)
Lemma C7_counterexample :
  0 < 50 /\ 0 < 4294967296 /\
  timeOption (Fin 50) (Fin 4294967296) = Fin 1 /\
  numCols (Fin 50) (Fin 4294967296) = Fin 4294967296 /\
  GridLines (mkProps (Fin 50) (Fin 4294967296)) = Throw RangeError.
Proof. repeat split. Qed.

(** C8.  For totalWidth = 1000 and totalTime = 2000: maxCols = 10; the
    option 100 gives 20 columns, not fewer than 10, and is rejected; 500 is
    selected; numCols = 4 and the column width is 250. *)
Theorem C8_scenario :
  maxCols (Fin 1000) = Fin 10 /\
  nth 0 (timeOptionCols (Fin 2000)) NaN = Fin 20 /\
  (Fin 20 <? maxCols (Fin 1000))%num = false /\
  nth 1 (timeOptionCols (Fin 2000)) NaN = Fin 4 /\
  timeOptionIndex (Fin 1000) (Fin 2000) = 1%Z /\
  timeOption (Fin 1000) (Fin 2000) = Fin 500 /\
  numCols (Fin 1000) (Fin 2000) = Fin 4 /\
  is_fin (widthPerCol (Fin 1000) (Fin 2000)) 250.
Proof.
  repeat split. eexists. split; reflexivity.
Qed.

(** ** The binary64 evaluation *)

(** On binary64 values too, the selected interval is the first option that
    passes the test of line 18, or 1: the selection does not depend on how
    quotients are rounded. *)
Lemma IEEE_timeOption_first_fit (W T : float) :
  IEEE.timeOption W T =
  match
    find (fun t => (IEEE.Math_floor (T / t) <? IEEE.Math_floor (W / 100))%float)
      [100; 500; 1000; 5000; 10000; 30000; 60000]%float
  with
  | Some t => t
  | None => 1%float
  end.
Proof.
  unfold IEEE.timeOption, IEEE.timeOptionIndex, IEEE.timeOptionCols,
    IEEE.maxCols, findIndex, IEEE.MIN_WIDTH.
  change IEEE.TIME_OPTIONS
    with [100; 500; 1000; 5000; 10000; 30000; 60000]%float.
  cbn [map find findIndex_from].
  repeat (match goal with
          | |- context [(?a <? ?b)%float] => destruct (a <? b)%float
          end; [reflexivity |]).
  reflexivity.
Qed.

(** The fit property on binary64 values: an interval other than the fallback
    passed the test of line 18, and numCols is the count that was tested. *)
Lemma IEEE_fit (W T : float) :
  IEEE.timeOption W T <> 1%float ->
  (IEEE.numCols W T <? IEEE.maxCols W)%float = true.
Proof.
  unfold IEEE.numCols. rewrite IEEE_timeOption_first_fit.
  destruct (find _ _) as [t |] eqn:E; [| congruence].
  intros _. apply find_some in E. exact (proj2 E).
Qed.

(** [IEEE.Math_floor] on some values. *)
Example IEEE_floor_values :
  map IEEE.Math_floor
    [6.5; -6.5; 0.5; -0.5; 7; -7; 0; neg_zero; 4503599627370495.5;
     -4503599627370495.5; 9007199254740992; infinity; neg_infinity]%float
  = [6; -7; 0; -1; 7; -7; 0; neg_zero; 4503599627370495;
     -4503599627370496; 9007199254740992; infinity; neg_infinity]%float /\
  is_nan (IEEE.Math_floor nan) = true /\
  IEEE.Math_floor (641 / 100) = 6%float /\
  IEEE.Math_floor (next_down 1000 / 100) = 9%float /\
  IEEE.Math_floor (next_down 1) = 0%float /\
  IEEE.Math_floor (next_down 0) = (-1)%float.
Proof. repeat split. Qed.

(** The scenarios of C2, C5 and C8 evaluate to the same values in binary64. *)
Example IEEE_scenario_1000_2000 :
  IEEE.maxCols 1000 = 10%float /\
  IEEE.timeOption 1000 2000 = 500%float /\
  IEEE.numCols 1000 2000 = 4%float /\
  IEEE.widthPerCol 1000 2000 = 250%float.
Proof. repeat split. Qed.

Example IEEE_scenario_100_100000 :
  IEEE.maxCols 100 = 1%float /\
  IEEE.timeOption 100 100000 = 1%float /\
  IEEE.numCols 100 100000 = 100000%float.
Proof. repeat split. Qed.

Example IEEE_scenario_500_0 :
  IEEE.timeOption 500 0 = 100%float /\
  IEEE.numCols 500 0 = 0%float /\
  IEEE.widthPerCol 500 0 = infinity.
Proof. repeat split. Qed.

(** A negative [totalTime] so small that the quotient underflows gives the
    column count -0, which [Array] accepts as 0: the one case where the
    binary64 computation does not throw on a negative [totalTime]. *)
Example IEEE_underflow :
  (next_down 0 <? 0)%float = true /\
  IEEE.timeOption 500 (next_down 0) = 100%float /\
  IEEE.numCols 500 (next_down 0) = neg_zero.
Proof. repeat split. Qed.

(** C9, as stated, fails on the values the code computes: for
    totalWidth = 641 and totalTime = 500 the interval is 100, numCols is 5,
    the column width (100 / 500) * 641 rounds to 128.20000000000002 (the
    binary64 value next above 641 / 5), and the last of the five lines
    (index 4) is at 641.0000000000001, the binary64 value next above 641. *)
Lemma C9_counterexample :
  (0 <? 641)%float = true /\ (0 <? 500)%float = true /\
  IEEE.maxCols 641 = 6%float /\
  IEEE.timeOption 641 500 = 100%float /\
  IEEE.numCols 641 500 = 5%float /\
  IEEE.widthPerCol 641 500 = next_up (641 / 5) /\
  IEEE.line_left 641 500 4 = next_up 641 /\
  (641 <? IEEE.line_left 641 500 4)%float = true /\
  (IEEE.line_left 641 500 4 <=? 641)%float = false.
Proof. repeat split. Qed.

(** C10, as stated, fails on the values the code computes: for
    totalWidth = 1000 and totalTime = 999.9999999999999 (the binary64 value
    next below 1000) the interval 100 is selected, with 9 columns against
    maxCols = 10, and the column width (100 / totalTime) * 1000 rounds to
    100 exactly. *)
Lemma C10_counterexample :
  (0 <? 1000)%float = true /\ (0 <? next_down 1000)%float = true /\
  IEEE.maxCols 1000 = 10%float /\
  IEEE.timeOption 1000 (next_down 1000) = 100%float /\
  IEEE.numCols 1000 (next_down 1000) = 9%float /\
  IEEE.widthPerCol 1000 (next_down 1000) = 100%float /\
  (IEEE.MIN_WIDTH <? IEEE.widthPerCol 1000 (next_down 1000))%float = false.
Proof. repeat split. Qed.

(** For a subnormal width the offsets are far off: totalWidth = 3 * 2^-1074
    and totalTime = 2 select the fallback 1 and render 2 lines, with the
    column width 1.5 * 2^-1074 rounded to 2 * 2^-1074 and the second line
    at 4 * 2^-1074, a third beyond the width. *)
Example IEEE_subnormal_width :
  IEEE.timeOption (next_up (next_up (next_up 0))) 2 = 1%float /\
  IEEE.numCols (next_up (next_up (next_up 0))) 2 = 2%float /\
  IEEE.widthPerCol (next_up (next_up (next_up 0))) 2 = next_up (next_up 0) /\
  IEEE.line_left (next_up (next_up (next_up 0))) 2 1 =
  next_up (next_up (next_up (next_up 0))).
Proof. repeat split. Qed.

(** The computed column width can also be below 100: for
    totalWidth = 900000000000003456 and totalTime = 45000000000000172032
    the interval 5000 is selected and the column width rounds to
    99.999999999999986, the binary64 value next below 100. *)
Example IEEE_width_below_100 :
  IEEE.timeOption 900000000000003456 45000000000000172032 = 5000%float /\
  IEEE.widthPerCol 900000000000003456 45000000000000172032 = next_down 100 /\
  (IEEE.widthPerCol 900000000000003456 45000000000000172032 <? 100)%float =
  true.
Proof. repeat split. Qed.

(** ** Further properties of the selection *)

(** [findIndex] answers -1 or an index of the array. *)
Lemma findIndex_from_range {A : Type} (p : A -> bool) (arr : list A) (i : Z) :
  findIndex_from p arr i = (-1)%Z \/
  (i <= findIndex_from p arr i < i + Z.of_nat (List.length arr))%Z.
Proof.
  revert i. induction arr as [| x rest IH]; intros i; simpl; [now left |].
  destruct (p x).
  - right. lia.
  - destruct (IH (i + 1)%Z) as [H | H]; [now left | right; lia].
Qed.

Lemma get_In (arr : list number) (i : Z) :
  (0 <= i < Z.of_nat (List.length arr))%Z -> In (get arr i) arr.
Proof.
  intros H. unfold get.
  destruct (i <? 0)%Z eqn:E; [apply Z.ltb_lt in E; lia |].
  apply nth_In. lia.
Qed.

Lemma one_not_option : ~ In 1 OPTIONS.
Proof.
  unfold OPTIONS. simpl.
  intros H; repeat (destruct H as [H | H]; [discriminate H |]); exact H.
Qed.

Lemma OPTIONS_bounds (t : Q) : In t OPTIONS -> 100 <= t /\ t <= 60000.
Proof.
  unfold OPTIONS. simpl.
  intros H; repeat (destruct H as [<- | H]; [split; discriminate |]);
    contradiction.
Qed.

(** For every pair of numbers, [NaN] and the infinities included, the index
    found on line 18 is -1 or an index of [TIME_OPTIONS], so the lookup of
    line 19 never leaves the array: the selected interval is an option of
    the list or the fallback 1, a finite number between 1 and 60000, never
    [undefined] or [NaN]. *)
Theorem selection_total (width time : number) :
  ((timeOptionIndex width time = (-1)%Z /\ timeOption width time = Fin 1) \/
   ((0 <= timeOptionIndex width time < 7)%Z /\
    In (timeOption width time) TIME_OPTIONS)) /\
  exists t, timeOption width time = Fin t /\ 1 <= t /\ t <= 60000.
Proof.
  assert (H :
    (timeOptionIndex width time = (-1)%Z /\ timeOption width time = Fin 1) \/
    ((0 <= timeOptionIndex width time < 7)%Z /\
     In (timeOption width time) TIME_OPTIONS)).
  { unfold timeOption.
    destruct (findIndex_from_range (fun c => c <? maxCols width)%num
                (timeOptionCols time) 0) as [E | E];
      fold (findIndex (fun c => c <? maxCols width)%num (timeOptionCols time))
        in E;
      fold (timeOptionIndex width time) in E.
    - left. now rewrite E.
    - right. unfold timeOptionCols in E. rewrite length_map in E.
      split; [exact E |].
      destruct (timeOptionIndex width time =? -1)%Z eqn:N;
        [apply Z.eqb_eq in N; lia |].
      simpl negb. cbv iota. now apply get_In. }
  split; [exact H |].
  destruct H as [[_ ->] | [_ H]].
  - exists 1. repeat split; discriminate.
  - rewrite TIME_OPTIONS_eq in H. apply in_map_iff in H.
    destruct H as (t & <- & Ht). exists t.
    destruct (OPTIONS_bounds t Ht) as [Hl Hu].
    repeat split; [| exact Hu].
    apply Qle_trans with 100; [discriminate | exact Hl].
Qed.

(** The same on binary64 values: whatever the two inputs, the selected
    interval is one of the seven options or 1. *)
Theorem IEEE_selection_total (W T : float) :
  In (IEEE.timeOption W T) [100; 500; 1000; 5000; 10000; 30000; 60000]%float \/
  IEEE.timeOption W T = 1%float.
Proof.
  rewrite IEEE_timeOption_first_fit.
  destruct (find _ _) as [t |] eqn:E; [left | now right].
  now apply find_some in E.
Qed.

(** When [totalTime] is [NaN], [Infinity] or [-Infinity], the column count
    is not an array length and the component throws a [RangeError],
    whatever [totalWidth] is. *)
Theorem non_finite_time_throws (width : number) :
  GridLines (mkProps width NaN) = Throw RangeError /\
  GridLines (mkProps width PosInf) = Throw RangeError /\
  GridLines (mkProps width NegInf) = Throw RangeError.
Proof.
  destruct width; repeat split.
Qed.

(** *** When the fallback is taken *)

Lemma Qdiv_le_num (a b t : Q) : 0 < t -> a <= b -> a / t <= b / t.
Proof.
  intros Ht H. unfold Qdiv. apply Qmult_le_compat_r; [exact H |].
  apply Qlt_le_weak. now apply Qinv_lt_0_compat.
Qed.

Lemma Qdiv_le_den (a t u : Q) : 0 <= a -> 0 < t -> t <= u -> a / u <= a / t.
Proof.
  intros Ha Ht Hu.
  assert (Hu' : 0 < u) by (apply Qlt_le_trans with t; assumption).
  apply Qle_shift_div_r; [exact Hu' |].
  apply Qle_trans with (a / t * t).
  - assert (E : a / t * t == a) by (field; now apply Qpos_neq0).
    rewrite E. apply Qle_refl.
  - rewrite !(Qmult_comm (a / t)).
    apply Qmult_le_compat_r; [exact Hu | now apply Qdiv_nonneg].
Qed.


(** *** Monotonicity in the duration *)




(** ** Further properties of the rendering *)

Lemma Qfloor_lt_1 (x : Q) : x < 1 -> (Qfloor x < 1)%Z.
Proof.
  intros H. rewrite Zlt_Qlt.
  apply Qle_lt_trans with (2 := H). apply Qfloor_le.
Qed.






Lemma IEEE_fit_witness :
  (IEEE.numCols 1000 2000 <? IEEE.maxCols 1000)%float = true.
Proof.
  apply (IEEE_fit 1000 2000). vm_compute. discriminate.
Defined.


(** ** The assistant example *)

Section Polling.
Import Assistant.
Variable svc : Service.

Lemma wait_reaches (n fuel c : nat) :
  (c <= n)%nat ->
  (forall k, (c <= k < n)%nat -> waiting_at svc k) ->
  is_in (status_at svc n) WAITING = false ->
  (n - c <= fuel)%nat ->
  wait fuel svc c (status_at svc c) = Some (status_at svc n, n).
Proof.
  revert c. induction fuel as [| fuel IH]; intros c Hc Hw Hn Hf.
  - assert (c = n) by lia. subst c. cbn [wait]. now rewrite Hn.
  - cbn [wait]. destruct (Nat.eq_dec c n) as [-> | Hne].
    + now rewrite Hn.
    + rewrite (Hw c) by lia. apply (IH (S c)); trivial; try lia.
      intros k Hk. apply Hw. lia.
Qed.

Lemma wait_sound (fuel c n : nat) (s : string) :
  wait fuel svc c (status_at svc c) = Some (s, n) ->
  (c <= n <= c + fuel)%nat /\ s = status_at svc n /\
  is_in s WAITING = false /\
  forall k, (c <= k < n)%nat -> waiting_at svc k.
Proof.
  revert c. induction fuel as [| fuel IH]; intros c; cbn [wait];
    destruct (is_in (status_at svc c) WAITING) eqn:E; try discriminate.
  - intros [= <- <-]. repeat split; trivial; lia.
  - intros H. destruct (IH (S c) H) as (Hc & Hs & Hn & Hw).
    repeat split; trivial; try lia.
    intros k Hk. destruct (Nat.eq_dec k c) as [-> | Hne]; [exact E |].
    apply Hw. lia.
  - intros [= <- <-]. repeat split; trivial; lia.
Qed.

Lemma wait_forever (fuel c : nat) :
  (forall k, waiting_at svc k) -> wait fuel svc c (status_at svc c) = None.
Proof.
  intros Hw. revert c. induction fuel as [| fuel IH]; intros c; cbn [wait];
    rewrite (Hw c); [reflexivity | apply (IH (S c))].
Qed.

Lemma wait_settles (n fuel : nat) :
  settles_at svc n -> (n <= fuel)%nat ->
  wait fuel svc 0 (created svc) = Some (status_at svc n, n).
Proof.
  intros [Hw Hn] Hf. apply (wait_reaches n fuel 0); trivial; try lia.
  intros k Hk. apply Hw. lia.
Qed.

(** The loop sleeps and retrieves the run once per waiting status: if the
    run settles after [n] retrievals and the loop may run that long, it
    ends on the status of the n-th retrieval after exactly [n] rounds, and
    not at all when the created run is already settled. *)
Theorem polling_stops_at_first_settled_status (n fuel : nat) :
  settles_at svc n -> (n <= fuel)%nat ->
  wait fuel svc 0 (created svc) = Some (status_at svc n, n) /\
  (forall fuel', (fuel' < n)%nat -> wait fuel' svc 0 (created svc) = None).
Proof.
  intros Hs Hf. split; [now apply wait_settles |].
  intros fuel' Hf'.
  destruct (wait fuel' svc 0 (created svc)) as [[s m] |] eqn:E;
    [| reflexivity].
  destruct (wait_sound fuel' 0 m s E) as (Hm & -> & Hn & Hw).
  destruct Hs as [Hs _]. unfold waiting_at in Hs.
  rewrite (Hs m) in Hn by lia. discriminate.
Qed.

(** A run that settles on any status other than completed (failed,
    cancelled, expired, requires_action, ...) makes the method raise
    [UnboundLocalError]: the [else] branch assigns [response] only, and the
    [return] statement reads [quote]. *)
Theorem unfinished_run_raises (n fuel : nat) (query : string) :
  settles_at svc n -> (n <= fuel)%nat ->
  status_at svc n <> "completed"%string ->
  retrieve_and_generate fuel svc query = Raises UnboundLocalError.
Proof.
  intros Hs Hf Hc. unfold retrieve_and_generate.
  rewrite (wait_settles n fuel Hs Hf).
  unfold branch. apply String.eqb_neq in Hc. now rewrite Hc.
Qed.

(** A completed run returns the text of the first content block of the
    first message with the quote of its first annotation, and raises
    [IndexError] when there is no message, no content block or no
    annotation. *)
Theorem completed_run_result (n fuel : nat) (query : string) :
  settles_at svc n -> (n <= fuel)%nat ->
  status_at svc n = "completed"%string ->
  retrieve_and_generate fuel svc query =
  match data svc with
  | [] => Raises IndexError
  | m :: _ =>
      match content m with
      | [] => Raises IndexError
      | c :: _ =>
          match annotations (text c) with
          | [] => Raises IndexError
          | a :: _ => Returns (value (text c), quote (file_citation a))
          end
      end
  end.
Proof.
  intros Hs Hf Hc. unfold retrieve_and_generate.
  rewrite (wait_settles n fuel Hs Hf).
  unfold branch. rewrite Hc. simpl.
  destruct (data svc) as [| m ?]; [reflexivity |]. simpl.
  destruct (content m) as [| c ?]; [reflexivity |]. simpl.
  destruct (annotations (text c)) as [| a ?]; reflexivity.
Qed.

(** Whatever the method returns was read from a completed run: the answer
    is the text of the newest message and the quote its first citation.
    The message of the [else] branch is never returned as such. *)
Theorem returned_pair_is_read_from_completed_run
  (fuel : nat) (query r q : string) :
  retrieve_and_generate fuel svc query = Returns (r, q) ->
  exists n m c a ms cs anns,
    settles_at svc n /\ (n <= fuel)%nat /\
    status_at svc n = "completed"%string /\
    data svc = m :: ms /\ content m = c :: cs /\
    annotations (text c) = a :: anns /\
    r = value (text c) /\ q = quote (file_citation a).
Proof.
  unfold retrieve_and_generate.
  destruct (wait fuel svc 0 (created svc)) as [[s n] |] eqn:Ew;
    [| discriminate].
  destruct (wait_sound fuel 0 n s Ew) as (Hfuel & Hs & Hn & Hw).
  unfold branch.
  destruct (s =? "completed")%string eqn:Ec; [| discriminate].
  apply String.eqb_eq in Ec.
  destruct (data svc) as [| m ms] eqn:Ed; [discriminate |]. simpl.
  destruct (content m) as [| c cs] eqn:Em; [discriminate |]. simpl.
  destruct (annotations (text c)) as [| a anns] eqn:Ea; [discriminate |].
  simpl. intros [= <- <-]. exists n, m, c, a, ms, cs, anns.
  subst s. repeat split; trivial; try lia.
  intros k Hk. apply Hw. lia.
Qed.

(** The method has no timeout: as long as the service reports a waiting
    status, the loop keeps polling, however many rounds it is given. *)
Theorem polls_as_long_as_run_waits (fuel : nat) (query : string) :
  (forall k, waiting_at svc k) ->
  retrieve_and_generate fuel svc query = Polling.
Proof.
  intros Hw. unfold retrieve_and_generate.
  change (created svc) with (status_at svc 0).
  now rewrite (wait_forever fuel 0 Hw).
Qed.
End Polling.

(** A service whose run is queued, then in progress twice, then [last]. *)
Lemma settles_after_three (last : string) (msgs : list Assistant.Message) :
  Assistant.is_in last Assistant.WAITING = false ->
  Assistant.settles_at
    {| Assistant.created := "queued";
       Assistant.retrieved :=
         fun k => if (k <? 2)%nat then "in_progress"%string else last;
       Assistant.data := msgs |} 3.
Proof.
  intros H. split; [| exact H].
  intros k Hk. destruct k as [| [| [| k]]]; [reflexivity .. | lia].
Qed.

Lemma polling_stops_at_first_settled_status_witness :
  Assistant.wait 5
    {| Assistant.created := "queued";
       Assistant.retrieved :=
         fun k => if (k <? 2)%nat then "in_progress"%string
                  else "failed"%string;
       Assistant.data := [] |} 0 "queued"
  = Some ("failed"%string, 3%nat).
Proof.
  refine (proj1 (polling_stops_at_first_settled_status _ 3 5 _ _)).
  - apply settles_after_three. reflexivity.
  - repeat constructor.
Defined.

Lemma unfinished_run_raises_witness :
  Assistant.retrieve_and_generate 5
    {| Assistant.created := "queued";
       Assistant.retrieved :=
         fun k => if (k <? 2)%nat then "in_progress"%string
                  else "failed"%string;
       Assistant.data := [] |} "How did paul graham grow up?"
  = Assistant.Raises Assistant.UnboundLocalError.
Proof.
  refine (unfinished_run_raises _ 3 5 _ _ _ _).
  - apply settles_after_three. reflexivity.
  - repeat constructor.
  - discriminate.
Defined.

Lemma completed_run_result_witness :
  Assistant.retrieve_and_generate 5
    {| Assistant.created := "queued";
       Assistant.retrieved :=
         fun k => if (k <? 2)%nat then "in_progress"%string
                  else "completed"%string;
       Assistant.data :=
         [ {| Assistant.content :=
                [ {| Assistant.text :=
                       {| Assistant.value := "In England.";
                          Assistant.annotations := [] |} |} ] |} ] |}
    "How did paul graham grow up?"
  = Assistant.Raises Assistant.IndexError.
Proof.
  refine (completed_run_result _ 3 5 _ _ _ _).
  - apply settles_after_three. reflexivity.
  - repeat constructor.
  - reflexivity.
Defined.

Lemma returned_pair_is_read_from_completed_run_witness :
  exists n,
    Assistant.status_at
      {| Assistant.created := "completed";
         Assistant.retrieved := fun _ => "completed"%string;
         Assistant.data :=
           [ {| Assistant.content :=
                  [ {| Assistant.text :=
                         {| Assistant.value := "In England.";
                            Assistant.annotations :=
                              [ {| Assistant.file_citation :=
                                     {| Assistant.quote := "I grew up" |} |} ]
                         |} |} ] |} ] |} n
    = "completed"%string.
Proof.
  destruct (returned_pair_is_read_from_completed_run
              {| Assistant.created := "completed";
                 Assistant.retrieved := fun _ => "completed"%string;
                 Assistant.data :=
                   [ {| Assistant.content :=
                          [ {| Assistant.text :=
                                 {| Assistant.value := "In England.";
                                    Assistant.annotations :=
                                      [ {| Assistant.file_citation :=
                                             {| Assistant.quote := "I grew up" |}
                                        |} ] |} |} ] |} ] |}
              0 "How did paul graham grow up?" "In England." "I grew up"
              eq_refl)
    as (n & _ & _ & _ & _ & _ & _ & _ & _ & H & _).
  exists n. exact H.
Defined.

Lemma polls_as_long_as_run_waits_witness :
  Assistant.retrieve_and_generate 1000
    {| Assistant.created := "queued";
       Assistant.retrieved := fun _ => "in_progress"%string;
       Assistant.data := [] |} "How did paul graham grow up?"
  = Assistant.Polling.
Proof.
  refine (polls_as_long_as_run_waits _ 1000 _ _).
  intros [| k]; reflexivity.
Defined.

(** ** The selection on binary64 values *)

Lemma IEEE_TIME_OPTIONS_eq :
  IEEE.TIME_OPTIONS = [100; 500; 1000; 5000; 10000; 30000; 60000]%float.
Proof. reflexivity. Qed.

Lemma IEEE_first_fit (W T : float) :
  IEEE.timeOption W T =
  match find (fits64 W T) IEEE.TIME_OPTIONS with
  | Some t => t
  | None => 1%float
  end.
Proof. rewrite IEEE_timeOption_first_fit. reflexivity. Qed.

(** C1, as stated with the floors of the exact quotients, fails on the
    values the code computes.  For totalWidth = 999999999999999872 and
    totalTime = 999999999999999744 (both binary64 numbers) the exact floors
    are 9999999999999997 < 9999999999999998, so the first option of the list
    with the stated property is 100; but both quotients round to
    9999999999999998 in binary64, the test of line 18 fails for 100 and the
    code selects 500. *)
Lemma C1_counterexample :
  float_value 999999999999999872 = Some 999999999999999872 /\
  float_value 999999999999999744 = Some 999999999999999744 /\
  (Qfloor (999999999999999744 / 100) < Qfloor (999999999999999872 / 100))%Z /\
  fits64 999999999999999872 999999999999999744 100 = false /\
  IEEE.timeOption 999999999999999872 999999999999999744 = 500%float.
Proof. repeat split. Qed.

(** C1, amended.  For positive [totalWidth] and [totalTime], the selected
    interval is the first element [t] of the ascending list
    100, 500, 1000, 5000, 10000, 30000, 60000 for which the code's test
    Math.floor(totalTime / t) < Math.floor(totalWidth / 100) holds, the two
    quotients being the binary64 quotients; and it is always a member of
    that list or the fallback 1. *)
Theorem C1_first_fitting_option (W T : float) :
  (0 <? W)%float = true -> (0 <? T)%float = true ->
  IEEE.TIME_OPTIONS = [100; 500; 1000; 5000; 10000; 30000; 60000]%float /\
  (In (IEEE.timeOption W T) IEEE.TIME_OPTIONS \/
   IEEE.timeOption W T = 1%float) /\
  (forall before t after,
      IEEE.TIME_OPTIONS = before ++ t :: after ->
      fits64 W T t = true ->
      (forall u, In u before -> fits64 W T u = false) ->
      IEEE.timeOption W T = t) /\
  (IEEE.timeOption W T <> 1%float ->
   exists before t after,
     IEEE.TIME_OPTIONS = before ++ t :: after /\
     IEEE.timeOption W T = t /\
     fits64 W T t = true /\
     forall u, In u before -> fits64 W T u = false).
Proof.
  intros _ _. split; [exact IEEE_TIME_OPTIONS_eq |].
  rewrite IEEE_first_fit. split; [| split].
  - destruct (find _ _) as [t |] eqn:E; [left | now right].
    now apply find_some in E.
  - intros before t after Hl Ht Hb. rewrite Hl.
    now rewrite (find_at (fits64 W T) before after t Ht Hb).
  - destruct (find _ _) as [t |] eqn:E; [| congruence]. intros _.
    destruct (find_first _ _ _ E) as (before & after & Hl & Ht & Hb).
    now exists before, t, after.
Qed.

Lemma C1_first_fitting_option_witness :
  IEEE.timeOption 999999999999999872 999999999999999744 = 500%float.
Proof.
  refine (proj1 (proj2 (proj2
            (C1_first_fitting_option 999999999999999872 999999999999999744
               eq_refl eq_refl)))
            [100%float] 500%float [1000; 5000; 10000; 30000; 60000]%float
            eq_refl eq_refl _).
  intros u [<- | []]. reflexivity.
Defined.

(** C2, as stated with the floors of the exact quotients, fails on the
    values the code computes.  For totalWidth = 450359962737050560 and
    totalTime = 270215977642230317056 (both binary64 numbers) no option has
    an exact floor(totalTime / t) below floor(totalWidth / 100) =
    4503599627370505, yet the interval is not the fallback: the binary64
    quotient totalWidth / 100 rounds up to 4503599627370506 and the code
    selects 60000. *)
Lemma C2_counterexample :
  float_value 450359962737050560 = Some 450359962737050560 /\
  float_value 270215977642230317056 = Some 270215977642230317056 /\
  forallb (fun t => negb (fits 450359962737050560 270215977642230317056 t))
    OPTIONS = true /\
  IEEE.maxCols 450359962737050560 = 4503599627370506%float /\
  IEEE.timeOption 450359962737050560 270215977642230317056 = 60000%float.
Proof. repeat split. Qed.

(** C2, amended.  For positive inputs, when the code's test
    Math.floor(totalTime / t) < Math.floor(totalWidth / 100), on the
    binary64 quotients, fails for every interval of the list, the selected
    interval is 1.  For totalWidth = 100 and totalTime = 100000:
    maxCols = 1, no option qualifies, the interval is 1 and
    numCols = 100000. *)
Theorem C2_fallback :
  (forall W T : float,
      (0 <? W)%float = true -> (0 <? T)%float = true ->
      (forall t, In t IEEE.TIME_OPTIONS -> fits64 W T t = false) ->
      IEEE.timeOption W T = 1%float) /\
  IEEE.maxCols 100 = 1%float /\
  (forall t, In t IEEE.TIME_OPTIONS -> fits64 100 100000 t = false) /\
  IEEE.timeOptionIndex 100 100000 = (-1)%Z /\
  IEEE.timeOption 100 100000 = 1%float /\
  IEEE.numCols 100 100000 = 100000%float.
Proof.
  split; [| repeat split].
  - intros W T _ _ H. rewrite IEEE_first_fit.
    now rewrite (find_nowhere (fits64 W T) IEEE.TIME_OPTIONS H).
  - rewrite IEEE_TIME_OPTIONS_eq. simpl.
    intros t H; repeat (destruct H as [<- | H]; [reflexivity |]).
    contradiction.
Qed.

Lemma C2_fallback_witness : IEEE.timeOption 100 100000 = 1%float.
Proof.
  apply (proj1 C2_fallback 100%float 100000%float);
    [reflexivity | reflexivity |].
  exact (proj1 (proj2 (proj2 C2_fallback))).
Defined.

(** C3, as stated with the floors of the exact quotients, fails on the
    values the code computes.  For totalWidth = 450359962737050560 and
    totalTime = 270215977642230317056 the code selects 60000, not the
    fallback, and the exact floors of totalTime / 60000 and totalWidth / 100
    are both 4503599627370505. *)
Lemma C3_counterexample :
  float_value 450359962737050560 = Some 450359962737050560 /\
  float_value 270215977642230317056 = Some 270215977642230317056 /\
  IEEE.timeOption 450359962737050560 270215977642230317056 = 60000%float /\
  Qfloor (270215977642230317056 / 60000) = 4503599627370505%Z /\
  Qfloor (450359962737050560 / 100) = 4503599627370505%Z.
Proof. repeat split. Qed.

(** C3, amended.  For positive inputs, whenever the selected interval is not
    the fallback 1, it is an option [t] of the list, numCols is
    Math.floor(totalTime / t) and is strictly less than
    maxCols = Math.floor(totalWidth / 100), the two quotients being the
    binary64 quotients. *)
Theorem C3_fit (W T : float) :
  (0 <? W)%float = true -> (0 <? T)%float = true ->
  IEEE.timeOption W T <> 1%float ->
  exists t,
    In t IEEE.TIME_OPTIONS /\
    IEEE.timeOption W T = t /\
    IEEE.numCols W T = IEEE.Math_floor (T / t) /\
    IEEE.maxCols W = IEEE.Math_floor (W / 100) /\
    (IEEE.Math_floor (T / t) <? IEEE.Math_floor (W / 100))%float = true /\
    (IEEE.numCols W T <? IEEE.maxCols W)%float = true.
Proof.
  intros _ _. unfold IEEE.numCols. rewrite IEEE_first_fit.
  destruct (find _ _) as [t |] eqn:E; [| congruence]. intros _.
  apply find_some in E. destruct E as [Hin Hfit].
  exists t. repeat split; trivial.
Qed.

Lemma C3_fit_witness :
  exists t,
    In t IEEE.TIME_OPTIONS /\
    IEEE.timeOption 1000 2000 = t /\
    IEEE.numCols 1000 2000 = IEEE.Math_floor (2000 / t) /\
    IEEE.maxCols 1000 = IEEE.Math_floor (1000 / 100) /\
    (IEEE.Math_floor (2000 / t) <? IEEE.Math_floor (1000 / 100))%float = true /\
    (IEEE.numCols 1000 2000 <? IEEE.maxCols 1000)%float = true.
Proof.
  apply (C3_fit 1000 2000); [reflexivity | reflexivity |].
  vm_compute. discriminate.
Defined.

(** ** The nearest integer *)

Ltac Qcompare_spec H :=
  match type of H with
  | (_ ?= _) = Eq => apply Qeq_alt in H
  | (_ ?= _) = Lt => apply Qlt_alt in H
  | (_ ?= _) = Gt => apply Qgt_alt in H
  end.

Lemma round_even_bounds (q : Q) :
  (Qfloor q <= round_even q <= Qfloor q + 1)%Z.
Proof.
  unfold round_even.
  destruct (q - inject_Z (Qfloor q) ?= 1 # 2); [destruct (Z.even _) | |]; lia.
Qed.

Lemma round_even_near (q : Q) :
  q - (1 # 2) <= inject_Z (round_even q) /\
  inject_Z (round_even q) <= q + (1 # 2).
Proof.
  pose proof (Qfloor_le q) as Hl. pose proof (Qlt_floor q) as Hu.
  rewrite inject_Z_plus in Hu. change (inject_Z 1) with 1 in Hu.
  unfold round_even.
  destruct (q - inject_Z (Qfloor q) ?= 1 # 2) eqn:C.
  - apply Qeq_alt in C.
    destruct (Z.even _); [| rewrite inject_Z_plus; change (inject_Z 1) with 1];
      split; lra.
  - apply Qlt_alt in C. split; lra.
  - apply Qgt_alt in C. rewrite inject_Z_plus. change (inject_Z 1) with 1.
    split; lra.
Qed.

Lemma round_even_Z (n : Z) : round_even (inject_Z n) = n.
Proof.
  unfold round_even. rewrite Qfloor_Z.
  assert (C : (inject_Z n - inject_Z n ?= 1 # 2) = Lt).
  { apply Qlt_alt. assert (E : inject_Z n - inject_Z n == 0) by ring.
    rewrite E. reflexivity. }
  now rewrite C.
Qed.

Lemma round_even_mono (p q : Q) : p <= q -> (round_even p <= round_even q)%Z.
Proof.
  intros H.
  pose proof (Qfloor_resp_le _ _ H) as Hf.
  destruct (Z.eq_dec (Qfloor p) (Qfloor q)) as [E | N].
  - unfold round_even. rewrite E.
    destruct (p - inject_Z (Qfloor q) ?= 1 # 2) eqn:Cp;
      destruct (q - inject_Z (Qfloor q) ?= 1 # 2) eqn:Cq;
      Qcompare_spec Cp; Qcompare_spec Cq;
      try destruct (Z.even _); try lia; exfalso; lra.
  - pose proof (round_even_bounds p). pose proof (round_even_bounds q). lia.
Qed.

Lemma round_even_le (q : Q) (n : Z) :
  q <= inject_Z n -> (round_even q <= n)%Z.
Proof.
  intros H. rewrite <- (round_even_Z n). now apply round_even_mono.
Qed.

Lemma round_even_ge (q : Q) (n : Z) :
  inject_Z n <= q -> (n <= round_even q)%Z.
Proof.
  intros H. rewrite <- (round_even_Z n) at 1. now apply round_even_mono.
Qed.

(** ** Powers of two and the binary exponent *)

Lemma pow2_pos (e : Z) : 0 < 2 ^ e.
Proof. now apply Qpower_0_lt. Qed.

Lemma pow2_le (a b : Z) : (a <= b)%Z -> 2 ^ a <= 2 ^ b.
Proof. intros H. apply Qpower_le_compat_l; [exact H | discriminate]. Qed.

Lemma pow2_succ (a : Z) : 2 ^ (a + 1) == 2 * 2 ^ a.
Proof.
  rewrite Qpower_plus by discriminate. rewrite Qpower_1_r. apply Qmult_comm.
Qed.

Lemma pow2_pred (a : Z) : 2 * 2 ^ (a - 1) == 2 ^ a.
Proof.
  rewrite <- pow2_succ. now replace (a - 1 + 1)%Z with a by lia.
Qed.

Lemma pow2_inject (n : Z) : (0 <= n)%Z -> inject_Z (2 ^ n) == 2 ^ n.
Proof. intros H. now rewrite Zpower_Qpower. Qed.

Lemma log2_bracket (n : Z) :
  (0 < n)%Z ->
  2 ^ Z.log2 n <= inject_Z n /\ inject_Z n < 2 * 2 ^ Z.log2 n.
Proof.
  intros H. destruct (Z.log2_spec n H) as [Hl Hu].
  pose proof (Z.log2_nonneg n) as H0.
  rewrite <- pow2_succ, <- !pow2_inject by lia.
  rewrite <- Zle_Qle, <- Zlt_Qlt. split; [exact Hl |].
  now rewrite Z.add_1_r.
Qed.

(** [Qexp2 x] is the binary exponent of a positive [x]. *)
Lemma Qexp2_spec (x : Q) :
  0 < x -> 2 ^ Qexp2 x <= x /\ x < 2 ^ (Qexp2 x + 1).
Proof.
  intros Hx. destruct x as [n d].
  assert (Hn : (0 < n)%Z).
  { unfold Qlt in Hx. simpl in Hx. lia. }
  destruct (log2_bracket n Hn) as [Hnl Hnu].
  destruct (log2_bracket (Zpos d)) as [Hdl Hdu]; [reflexivity |].
  unfold Qexp2. cbn [Qnum Qden].
  set (a := Z.log2 n) in *. set (b := Z.log2 (Zpos d)) in *.
  pose proof (pow2_pos a) as Pa. pose proof (pow2_pos b) as Pb.
  assert (Ex : inject_Z n == (n # d) * inject_Z (Zpos d)).
  { unfold Qeq, Qmult, inject_Z. simpl. rewrite Pos.mul_1_r. ring. }
  assert (Hd : 0 < inject_Z (Zpos d)) by reflexivity.
  assert (Eab : 2 ^ (a - b) * 2 ^ b == 2 ^ a).
  { rewrite <- Qpower_plus by discriminate.
    now replace (a - b + b)%Z with a by lia. }
  set (x := n # d) in *. set (D := inject_Z (Zpos d)) in *.
  set (N := inject_Z n) in *.
  assert (Hlow : 2 ^ (a - b - 1) <= x).
  { pose proof (pow2_pred (a - b)) as E. pose proof (pow2_pos (a - b - 1)).
    set (y := 2 ^ (a - b - 1)) in *. set (z := 2 ^ (a - b)) in *.
    set (A := 2 ^ a) in *. set (B := 2 ^ b) in *.
    apply Qnot_lt_le. intros C.
    assert (x * D < y * (2 * B)).
    { apply Qmult_lt_compat_nonneg; split; lra. }
    assert (y * (2 * B) == A) by (rewrite <- Eab, <- E; ring).
    lra. }
  assert (Hup : x < 2 ^ (a - b + 1)).
  { rewrite pow2_succ. pose proof (pow2_pos (a - b)).
    set (z := 2 ^ (a - b)) in *. set (A := 2 ^ a) in *. set (B := 2 ^ b) in *.
    apply Qnot_le_lt. intros C.
    assert (2 * z * B <= x * D).
    { apply Qmult_le_compat_nonneg; split; lra. }
    assert (2 * z * B == 2 * A) by (rewrite <- Eab; ring).
    lra. }
  destruct (Qltb x (2 ^ (a - b))) eqn:L.
  - apply Qltb_lt in L. split; [exact Hlow |].
    now replace (a - b - 1 + 1)%Z with (a - b)%Z by lia.
  - split; [| exact Hup].
    apply Qnot_lt_le. intros C. apply Qltb_lt in C. congruence.
Qed.

(** The binary exponent grows with the number. *)
Lemma exponent_mono (x y : Q) (a b : Z) :
  x <= y -> 2 ^ a <= x -> y < 2 ^ (b + 1) -> (a <= b)%Z.
Proof.
  intros Hxy Ha Hb.
  destruct (Z_le_gt_dec a b) as [H | H]; [exact H | exfalso].
  assert (2 ^ (b + 1) <= 2 ^ a) by (apply pow2_le; lia).
  lra.
Qed.

Lemma Qexp2_mono (x y : Q) : 0 < x -> x <= y -> (Qexp2 x <= Qexp2 y)%Z.
Proof.
  intros Hx Hxy.
  destruct (Qexp2_spec x Hx) as [Hl _].
  destruct (Qexp2_spec y) as [_ Hu]; [lra |].
  now apply (exponent_mono x y).
Qed.

(** ** Rounding a positive number *)

Lemma round_even_proper (p q : Q) : p == q -> round_even p = round_even q.
Proof.
  intros E. apply Z.le_antisymm; apply round_even_mono; rewrite E;
    apply Qle_refl.
Qed.

Lemma pow2_scale (k m : Z) :
  (0 <= m)%Z -> inject_Z (2 ^ m) * 2 ^ k == 2 ^ (k + m).
Proof.
  intros H. rewrite pow2_inject by exact H.
  rewrite Qpower_plus by discriminate. apply Qmult_comm.
Qed.

Lemma div_pow2 (x : Q) (k : Z) : x / 2 ^ k * 2 ^ k == x.
Proof. field. apply Qpower_not_0. discriminate. Qed.

Lemma div_pow2_le (x : Q) (k m : Z) :
  (0 <= m)%Z -> x <= 2 ^ (k + m) -> x / 2 ^ k <= inject_Z (2 ^ m).
Proof.
  intros Hm H. pose proof (pow2_pos k) as P.
  apply Qle_shift_div_r; [exact P |]. now rewrite pow2_scale.
Qed.

Lemma div_pow2_ge (x : Q) (k m : Z) :
  (0 <= m)%Z -> 2 ^ (k + m) <= x -> inject_Z (2 ^ m) <= x / 2 ^ k.
Proof.
  intros Hm H. pose proof (pow2_pos k) as P.
  apply Qle_shift_div_l; [exact P |]. now rewrite pow2_scale.
Qed.

Lemma round_pos_nonneg (x : Q) : 0 <= x -> 0 <= round_pos x.
Proof.
  intros H. unfold round_pos, ulp64.
  set (k := (Z.max (Qexp2 x) (-1022) - 52)%Z).
  pose proof (pow2_pos k) as P.
  apply Qmult_le_0_compat; [| lra].
  change 0 with (inject_Z 0). rewrite <- Zle_Qle.
  apply round_even_ge. change (inject_Z 0) with 0.
  apply Qle_shift_div_l; [exact P | lra].
Qed.

(** The result stays in the binade of the number. *)
Lemma round_pos_upper (x : Q) :
  0 < x -> round_pos x <= 2 ^ (Z.max (Qexp2 x) (-1022) + 1).
Proof.
  intros H. destruct (Qexp2_spec x H) as [_ Hu].
  unfold round_pos, ulp64.
  set (e := Z.max (Qexp2 x) (-1022)).
  assert (Hx : x <= 2 ^ (e - 52 + 53)).
  { replace (e - 52 + 53)%Z with (e + 1)%Z by lia.
    apply Qle_trans with (2 ^ (Qexp2 x + 1)); [lra |].
    apply pow2_le. lia. }
  pose proof (pow2_pos (e - 52)) as P.
  apply Qle_trans with (inject_Z (2 ^ 53) * 2 ^ (e - 52)).
  - apply Qmult_le_compat_r; [| lra]. rewrite <- Zle_Qle.
    apply round_even_le. apply div_pow2_le; [discriminate | exact Hx].
  - rewrite pow2_scale by discriminate.
    replace (e - 52 + 53)%Z with (e + 1)%Z by lia. apply Qle_refl.
Qed.

Lemma round_pos_lower (x : Q) :
  0 < x -> (-1022 <= Qexp2 x)%Z -> 2 ^ Qexp2 x <= round_pos x.
Proof.
  intros H He. destruct (Qexp2_spec x H) as [Hl _].
  unfold round_pos, ulp64. rewrite Z.max_l by exact He.
  set (e := Qexp2 x) in *.
  pose proof (pow2_pos (e - 52)) as P.
  apply Qle_trans with (inject_Z (2 ^ 52) * 2 ^ (e - 52)).
  - rewrite pow2_scale by discriminate.
    replace (e - 52 + 52)%Z with e by lia. apply Qle_refl.
  - apply Qmult_le_compat_r; [| lra]. rewrite <- Zle_Qle.
    apply round_even_ge. apply div_pow2_ge; [discriminate |].
    now replace (e - 52 + 52)%Z with e by lia.
Qed.

Lemma round_pos_mono (x y : Q) :
  0 < x -> x <= y -> round_pos x <= round_pos y.
Proof.
  intros Hx Hxy. assert (Hy : 0 < y) by lra.
  pose proof (Qexp2_mono x y Hx Hxy) as He.
  destruct (Z.eq_dec (Z.max (Qexp2 x) (-1022)) (Z.max (Qexp2 y) (-1022)))
    as [E | N].
  - unfold round_pos, ulp64. rewrite E.
    set (k := (Z.max (Qexp2 y) (-1022) - 52)%Z).
    pose proof (pow2_pos k) as P.
    apply Qmult_le_compat_r; [| lra]. rewrite <- Zle_Qle.
    apply round_even_mono. now apply Qdiv_le_num.
  - apply Qle_trans with (1 := round_pos_upper x Hx).
    apply Qle_trans with (2 ^ Qexp2 y).
    + apply pow2_le. lia.
    + apply round_pos_lower; [exact Hy | lia].
Qed.

Lemma u64_pow2 : u64 == 2 ^ (-53).
Proof. reflexivity. Qed.

Lemma eta64_pow2 : eta64 == 2 ^ (-1075).
Proof. vm_compute. reflexivity. Qed.

(** Half the spacing is within the relative error 2^-53, or 2^-1075 below
    the normal numbers. *)
Lemma half_ulp64 (x : Q) : 0 < x -> ulp64 x * (1 # 2) <= u64 * x + eta64.
Proof.
  intros H. destruct (Qexp2_spec x H) as [Hl _].
  unfold ulp64. set (e := Qexp2 x) in *.
  assert (Eh : forall k, 2 ^ k * (1 # 2) == 2 ^ (k - 1)).
  { intros k. rewrite <- (pow2_pred k). field. }
  rewrite Eh.
  assert (Hu : 0 < u64) by reflexivity.
  assert (Ht : 0 < eta64) by reflexivity.
  destruct (Z_le_gt_dec (-1022) e) as [Hn | Hs].
  - rewrite Z.max_l by exact Hn.
    replace (e - 52 - 1)%Z with (-53 + e)%Z by lia.
    rewrite Qpower_plus by discriminate. rewrite <- u64_pow2.
    assert (u64 * 2 ^ e <= u64 * x) by (apply Qmult_le_l; assumption).
    lra.
  - rewrite Z.max_r by lia. change (-1022 - 52 - 1)%Z with (-1075)%Z.
    rewrite <- eta64_pow2.
    assert (0 <= u64 * x) by (apply Qmult_le_0_compat; lra).
    lra.
Qed.

Lemma round_pos_accurate (x : Q) :
  0 < x ->
  x - (u64 * x + eta64) <= round_pos x /\
  round_pos x <= x + (u64 * x + eta64).
Proof.
  intros H. pose proof (half_ulp64 x H) as Hh.
  unfold round_pos. unfold ulp64 in *.
  set (k := (Z.max (Qexp2 x) (-1022) - 52)%Z) in *.
  pose proof (pow2_pos k) as P. pose proof (div_pow2 x k) as E.
  destruct (round_even_near (x / 2 ^ k)) as [Hl Hu].
  set (q := x / 2 ^ k) in *. set (r := inject_Z (round_even q)) in *.
  set (p := 2 ^ k) in *.
  assert ((q - (1 # 2)) * p <= r * p) by (apply Qmult_le_compat_r; lra).
  assert (r * p <= (q + (1 # 2)) * p) by (apply Qmult_le_compat_r; lra).
  assert (E1 : (q - (1 # 2)) * p == q * p - p * (1 # 2)) by ring.
  assert (E2 : (q + (1 # 2)) * p == q * p + p * (1 # 2)) by ring.
  split; lra.
Qed.

(** Integers up to 2^53 are binary64 numbers. *)
Lemma round_pos_int (z : Z) :
  (0 < z <= 2 ^ 53)%Z -> round_pos (inject_Z z) == inject_Z z.
Proof.
  intros [H0 H1].
  assert (Hx : 0 < inject_Z z)
    by (change (inject_Z 0 < inject_Z z); rewrite <- Zlt_Qlt; lia).
  destruct (Qexp2_spec _ Hx) as [Hl Hu].
  unfold round_pos, ulp64. set (e := Qexp2 (inject_Z z)) in *.
  assert (He0 : (0 <= e)%Z).
  { apply (exponent_mono 1 (inject_Z z)); [| apply Qle_refl | exact Hu].
    change (inject_Z 1 <= inject_Z z). rewrite <- Zle_Qle. lia. }
  assert (He1 : (e <= 53)%Z).
  { apply (exponent_mono (inject_Z z) (inject_Z z));
      [apply Qle_refl | exact Hl |].
    apply Qle_lt_trans with (inject_Z (2 ^ 53)); [rewrite <- Zle_Qle; lia |].
    reflexivity. }
  rewrite Z.max_l by lia.
  assert (Hm : exists m : Z, inject_Z z == inject_Z m * 2 ^ (e - 52)).
  { destruct (Z.eq_dec e 53) as [-> | Hne].
    - exists (2 ^ 52)%Z.
      assert (z = 2 ^ 53)%Z.
      { apply Z.le_antisymm; [exact H1 |].
        rewrite Zle_Qle. exact Hl. }
      subst z. reflexivity.
    - exists (z * 2 ^ (52 - e))%Z.
      rewrite inject_Z_mult, pow2_inject by lia.
      rewrite <- Qmult_assoc, <- Qpower_plus by discriminate.
      replace (52 - e + (e - 52))%Z with 0%Z by lia.
      rewrite Qpower_0_r. ring. }
  destruct Hm as (m & Em).
  pose proof (pow2_pos (e - 52)) as P.
  assert (Eq : inject_Z z / 2 ^ (e - 52) == inject_Z m).
  { rewrite Em. field. lra. }
  rewrite (round_even_proper _ _ Eq), round_even_Z. now rewrite <- Em.
Qed.

(** ** [round64] has the properties of a rounding *)

Lemma Qnum_sign (x : Q) :
  match Qnum x with
  | Z0 => x == 0
  | Zpos _ => 0 < x
  | Zneg _ => x < 0
  end.
Proof. destruct x as [[| p | p] d]; reflexivity. Qed.

Lemma round64_zero (x : Q) : x == 0 -> round64 x = 0.
Proof.
  intros H. pose proof (Qnum_sign x) as S. unfold round64.
  destruct (Qnum x); [reflexivity | lra | lra].
Qed.

Lemma round64_pos (x : Q) : 0 < x -> round64 x = round_pos x.
Proof.
  intros H. pose proof (Qnum_sign x) as S. unfold round64.
  destruct (Qnum x); [lra | reflexivity | lra].
Qed.

Lemma round64_neg (x : Q) : x < 0 -> round64 x = - round_pos (- x).
Proof.
  intros H. pose proof (Qnum_sign x) as S. unfold round64.
  destruct (Qnum x); [lra | lra | reflexivity].
Qed.

Lemma round64_mono (x y : Q) : x <= y -> round64 x <= round64 y.
Proof.
  intros H.
  destruct (Q_dec x 0) as [[Hx | Hx] | Hx]; destruct (Q_dec y 0) as [[Hy | Hy] | Hy];
    try (exfalso; lra).
  - rewrite (round64_neg x Hx), (round64_neg y Hy).
    apply Qopp_le_compat. apply round_pos_mono; lra.
  - rewrite (round64_neg x Hx), (round64_pos y Hy).
    pose proof (round_pos_nonneg (- x)). pose proof (round_pos_nonneg y). lra.
  - rewrite (round64_neg x Hx), (round64_zero y Hy).
    pose proof (round_pos_nonneg (- x)). lra.
  - rewrite (round64_pos x Hx), (round64_pos y Hy).
    now apply round_pos_mono.
  - rewrite (round64_zero x Hx), (round64_pos y Hy).
    apply round_pos_nonneg. lra.
  - rewrite (round64_zero x Hx), (round64_zero y Hy). apply Qle_refl.
Qed.

Lemma round_pos_proper (x y : Q) :
  0 < x -> x == y -> round_pos x == round_pos y.
Proof.
  intros H E. apply Qle_antisym; apply round_pos_mono; lra.
Qed.

Lemma round64_opp (x : Q) : round64 (- x) == - round64 x.
Proof.
  destruct (Q_dec x 0) as [[Hx | Hx] | Hx].
  - rewrite (round64_neg x Hx), (round64_pos (- x)) by lra.
    now rewrite Qopp_involutive.
  - rewrite (round64_pos x Hx), (round64_neg (- x)) by lra.
    apply Qopp_comp. apply round_pos_proper; [lra |]. apply Qopp_involutive.
  - rewrite (round64_zero x Hx), (round64_zero (- x)) by lra. reflexivity.
Qed.

Lemma round64_int (z : Z) :
  (Z.abs z <= 2 ^ 53)%Z -> round64 (inject_Z z) == inject_Z z.
Proof.
  intros H. destruct z as [| p | p].
  - reflexivity.
  - rewrite round64_pos by reflexivity. apply round_pos_int. lia.
  - rewrite round64_neg by reflexivity.
    change (- inject_Z (Z.neg p)) with (inject_Z (Z.pos p)).
    rewrite round_pos_int by lia. reflexivity.
Qed.

Lemma round64_accurate (x : Q) :
  0 <= x -> x < OVERFLOW ->
  x - (u64 * x + eta64) <= round64 x /\ round64 x <= x + (u64 * x + eta64).
Proof.
  intros H _. destruct (Qle_lt_or_eq _ _ H) as [Hp | Hz].
  - rewrite (round64_pos x Hp). now apply round_pos_accurate.
  - rewrite (round64_zero x) by lra.
    assert (Ht : 0 < eta64) by reflexivity.
    assert (E : u64 * x == 0) by (rewrite <- Hz; ring).
    split; lra.
Qed.

(** Rounding to the nearest binary64 number is a rounding. *)
Lemma binary64 : rounding.
Proof.
  exact {| rnd := round64; rnd_mono := round64_mono; rnd_opp := round64_opp;
           rnd_int := round64_int; rnd_accurate := round64_accurate |}.
Defined.

(** ** Rounding: basic facts *)

Section Rounding_facts.
Variable R : rounding.

Lemma rnd_proper (x y : Q) : x == y -> rnd R x == rnd R y.
Proof.
  intros H. apply Qle_antisym; apply rnd_mono; rewrite H; apply Qle_refl.
Qed.

Lemma rnd_0 : rnd R 0 == 0.
Proof. apply (rnd_int R 0). discriminate. Qed.

Lemma rnd_nonneg (x : Q) : 0 <= x -> 0 <= rnd R x.
Proof. intros H. rewrite <- rnd_0. now apply rnd_mono. Qed.

Lemma rnd_nonpos (x : Q) : x <= 0 -> rnd R x <= 0.
Proof. intros H. rewrite <- rnd_0. now apply rnd_mono. Qed.

Lemma eta64_MIN_NORMAL : eta64 == u64 * MIN_NORMAL.
Proof. reflexivity. Qed.

Lemma two_u64_eq : two_u64 == u64 + u64.
Proof. reflexivity. Qed.

(** From the smallest normal number on, the rounding is within the relative
    error 2^-52. *)
Lemma rnd_rel (x : Q) :
  MIN_NORMAL <= x -> x < OVERFLOW ->
  x * (1 - two_u64) <= rnd R x /\ rnd R x <= x * (1 + two_u64).
Proof.
  intros Hn Ho.
  assert (H0 : 0 <= x) by (apply Qle_trans with (2 := Hn); discriminate).
  destruct (rnd_accurate R x H0 Ho) as [Hl Hu].
  assert (He : eta64 <= u64 * x).
  { rewrite eta64_MIN_NORMAL. apply Qmult_le_l; [reflexivity | exact Hn]. }
  rewrite two_u64_eq. split; lra.
Qed.

End Rounding_facts.

(** ** The computation under rounding: basic facts *)

Section B64_facts.
Variable R : rounding.

Lemma OVERFLOW_pos : 0 < OVERFLOW.
Proof. reflexivity. Qed.

Lemma rfin_nonneg (x : Q) :
  0 <= x ->
  (x < OVERFLOW /\ B64.rfin R x = Fin (rnd R x)) \/
  (OVERFLOW <= x /\ B64.rfin R x = PosInf).
Proof.
  intros H. unfold B64.rfin.
  destruct (Qle_bool OVERFLOW (Qabs x)) eqn:E.
  - right. apply Qle_bool_iff in E. rewrite (Qabs_pos x H) in E.
    split; [exact E |].
    destruct (Qltb x 0) eqn:L; [| reflexivity].
    apply Qltb_lt in L. lra.
  - left. split; [| reflexivity].
    apply Qnot_le_lt. intros C. rewrite <- (Qabs_pos x H) in C.
    apply Qle_bool_iff in C. congruence.
Qed.

Lemma rfin_nonpos (x : Q) :
  x <= 0 ->
  (- OVERFLOW < x /\ B64.rfin R x = Fin (rnd R x)) \/
  (x <= - OVERFLOW /\ B64.rfin R x = NegInf).
Proof.
  intros H. unfold B64.rfin.
  destruct (Qle_bool OVERFLOW (Qabs x)) eqn:E.
  - right. apply Qle_bool_iff in E. rewrite (Qabs_neg x H) in E.
    split; [lra |].
    destruct (Qltb x 0) eqn:L; [reflexivity |].
    assert (x < 0) by (pose proof OVERFLOW_pos; lra).
    apply Qltb_lt in H0. congruence.
  - left. split; [| reflexivity].
    apply Qnot_le_lt. intros C.
    assert (C' : OVERFLOW <= Qabs x) by (rewrite (Qabs_neg x H); lra).
    apply Qle_bool_iff in C'. congruence.
Qed.

Lemma rdiv_fin (a b : Q) :
  ~ b == 0 -> B64.rdiv R (Fin a) (Fin b) = B64.rfin R (a / b).
Proof.
  intros H. unfold B64.rdiv. now rewrite (Qeq_bool_false _ _ H).
Qed.

(** The selection is the first option that passes the test, or 1. *)
Lemma B64_first_fit (width time : number) :
  B64.timeOption R width time =
  match find (fun t => B64.fits R width time (Fin t)) OPTIONS with
  | Some t => Fin t
  | None => Fin 1
  end.
Proof.
  unfold B64.timeOption, B64.timeOptionIndex, findIndex, B64.timeOptionCols,
    B64.fits.
  rewrite TIME_OPTIONS_eq. unfold OPTIONS.
  cbn [map find findIndex_from].
  repeat (match goal with
          | |- context [(?a <? ?b)%num] => destruct (a <? b)%num
          end; [reflexivity |]).
  reflexivity.
Qed.

Lemma OPTIONS_integers (t : Q) :
  In t OPTIONS -> exists z : Z, t = inject_Z z /\ (100 <= z <= 60000)%Z.
Proof.
  unfold OPTIONS. simpl.
  intros H;
    repeat (destruct H as [<- | H];
            [eexists; split; [reflexivity | split; discriminate] |]).
  contradiction.
Qed.

(** The selected interval is an integer from 1 to 60000. *)
Lemma B64_timeOption_integer (width time : number) :
  exists z : Z,
    B64.timeOption R width time = Fin (inject_Z z) /\ (1 <= z <= 60000)%Z.
Proof.
  rewrite B64_first_fit.
  destruct (find _ _) as [t |] eqn:E.
  - apply find_some in E. destruct E as [E _].
    destruct (OPTIONS_integers t E) as (z & -> & Hz).
    exists z. split; [reflexivity | lia].
  - exists 1%Z. split; [reflexivity | lia].
Qed.

Lemma B64_chosen (width time : number) :
  B64.timeOption R width time <> Fin 1 ->
  exists t,
    In t OPTIONS /\ B64.timeOption R width time = Fin t /\
    B64.fits R width time (Fin t) = true.
Proof.
  rewrite B64_first_fit.
  destruct (find _ _) as [t |] eqn:E; [| congruence]. intros _.
  apply find_some in E. destruct E as [Hin Hfit]. now exists t.
Qed.

Lemma inject_Z_pos_neq0 (z : Z) : (1 <= z)%Z -> ~ inject_Z z == 0.
Proof.
  intros H E.
  assert (0 < inject_Z z)
    by (change (inject_Z 0 < inject_Z z); rewrite <- Zlt_Qlt; lia).
  rewrite E in H0. discriminate H0.
Qed.
End B64_facts.

(** ** The rendering under rounding *)

Section B64_render.
Variable R : rounding.
Variable engine_max : Z.

Lemma B64_numCols_floor (width time : number) (a : Q) :
  B64.rdiv R time (B64.timeOption R width time) = Fin a ->
  B64.numCols R width time = Fin (inject_Z (Qfloor a)).
Proof. intros H. unfold B64.numCols. now rewrite H. Qed.

(** A column count within both limits renders that many elements. *)
Lemma B64_render_ok (width time : number) (n : Z) :
  B64.numCols R width time = Fin (inject_Z n) ->
  (0 <= n <= Z.min MAX_ARRAY_LENGTH engine_max)%Z ->
  B64.GridLines R engine_max (mkProps width time) =
  Ok (map (B64.tick R width time) (seq 0 (Z.to_nat n))).
Proof.
  intros E H. unfold B64.GridLines, B64.children. cbn [totalWidth totalTime].
  rewrite E, Array_ok by lia. unfold B64.fill.
  rewrite Z2Nat.id by lia.
  destruct (n <=? engine_max)%Z eqn:L; [reflexivity |].
  apply Z.leb_gt in L. lia.
Qed.

(** Any other integer column count throws. *)
Lemma B64_render_throw (width time : number) (n : Z) :
  B64.numCols R width time = Fin (inject_Z n) ->
  (n < 0 \/ Z.min MAX_ARRAY_LENGTH engine_max < n)%Z ->
  B64.GridLines R engine_max (mkProps width time) = Throw RangeError.
Proof.
  intros E H. unfold B64.GridLines, B64.children. cbn [totalWidth totalTime].
  rewrite E.
  destruct (Z_lt_dec n 0) as [Hn | Hn]; [now rewrite Array_negative |].
  destruct (Z_lt_dec MAX_ARRAY_LENGTH n) as [Hm | Hm];
    [now rewrite Array_too_long |].
  rewrite Array_ok by lia. unfold B64.fill. rewrite Z2Nat.id by lia.
  destruct (n <=? engine_max)%Z eqn:L; [| reflexivity].
  apply Z.leb_le in L. lia.
Qed.

(** A column count that is no finite number throws. *)
Lemma B64_render_not_finite (width time : number) :
  (forall q, B64.rdiv R time (B64.timeOption R width time) <> Fin q) ->
  B64.GridLines R engine_max (mkProps width time) = Throw RangeError.
Proof.
  intros H. unfold B64.GridLines, B64.children, B64.numCols.
  cbn [totalWidth totalTime].
  destruct (B64.rdiv R time (B64.timeOption R width time)) as [q | | |];
    [now elim (H q) | reflexivity ..].
Qed.

(** Whatever is rendered is the ticks 0 .. n - 1 of an integer column count
    within both limits. *)
Lemma B64_render_inv (width time : number) (ticks : list Tick) :
  B64.GridLines R engine_max (mkProps width time) = Ok ticks ->
  exists a,
    B64.rdiv R time (B64.timeOption R width time) = Fin a /\
    (0 <= Qfloor a <= Z.min MAX_ARRAY_LENGTH engine_max)%Z /\
    ticks = map (B64.tick R width time) (seq 0 (Z.to_nat (Qfloor a))).
Proof.
  intros H.
  destruct (B64.rdiv R time (B64.timeOption R width time)) as [a | | |] eqn:E.
  - exists a. split; [reflexivity |].
    pose proof (B64_numCols_floor width time a E) as En.
    destruct (Z_lt_dec (Qfloor a) 0) as [Hn | Hn].
    { rewrite (B64_render_throw _ _ _ En) in H by lia. discriminate. }
    destruct (Z_lt_dec (Z.min MAX_ARRAY_LENGTH engine_max) (Qfloor a))
      as [Hm | Hm].
    { rewrite (B64_render_throw _ _ _ En) in H by lia. discriminate. }
    rewrite (B64_render_ok _ _ _ En) in H by lia.
    split; [lia | congruence].
  - rewrite B64_render_not_finite in H; [discriminate |].
    intros q. rewrite E. discriminate.
  - rewrite B64_render_not_finite in H; [discriminate |].
    intros q. rewrite E. discriminate.
  - rewrite B64_render_not_finite in H; [discriminate |].
    intros q. rewrite E. discriminate.
Qed.

(** A duration of at most -2^-1022 has a negative quotient by every
    interval from 1 to 60000: the division cannot round it to zero. *)
Lemma rdiv_negative (T : Q) (z : Z) :
  T <= - MIN_NORMAL -> (1 <= z <= 60000)%Z ->
  B64.rdiv R (Fin T) (Fin (inject_Z z)) = NegInf \/
  exists a, B64.rdiv R (Fin T) (Fin (inject_Z z)) = Fin a /\ a < 0.
Proof.
  intros HT Hz.
  rewrite rdiv_fin by (apply inject_Z_pos_neq0; lia).
  set (t := inject_Z z).
  assert (Ht1 : 1 <= t)
    by (change (inject_Z 1 <= inject_Z z); rewrite <- Zle_Qle; lia).
  assert (Ht2 : t <= 60000)
    by (change (inject_Z z <= inject_Z 60000); rewrite <- Zle_Qle; lia).
  assert (Ht0 : 0 < t) by lra.
  assert (Hm : 0 < MIN_NORMAL) by reflexivity.
  assert (Hx : MIN_NORMAL / 60000 <= - T / t).
  { apply Qle_trans with (- T / 60000).
    - apply Qdiv_le_num; [reflexivity | lra].
    - apply Qdiv_le_den; [lra | exact Ht0 | exact Ht2]. }
  assert (Ex : T / t == - (- T / t)) by (field; lra).
  assert (Hneg : T / t <= 0) by (rewrite Ex; pose proof (Qdiv_nonneg (- T) t Ht0); lra).
  destruct (rfin_nonpos R (T / t) Hneg) as [[Ho ->] | [_ ->]]; [| now left].
  right. eexists. split; [reflexivity |].
  rewrite (rnd_proper R _ _ Ex), rnd_opp.
  assert (H0 : 0 <= - T / t) by (apply Qdiv_nonneg; lra).
  destruct (rnd_accurate R (- T / t) H0) as [Hl _]; [lra |].
  assert (Hc : eta64 < (1 - u64) * (MIN_NORMAL / 60000)) by reflexivity.
  assert (Hu : 0 < 1 - u64) by reflexivity.
  assert ((1 - u64) * (MIN_NORMAL / 60000) <= (1 - u64) * (- T / t))
    by (apply Qmult_le_l; assumption).
  lra.
Qed.
End B64_render.

(** ** Negative inputs *)

Section B64_negative.
Variable R : rounding.
Variable engine_max : Z.

(** A width that is not positive leaves no room for any column: no option
    passes the test of line 18 when the duration is not negative. *)
Lemma B64_no_room (W T : Q) (z : Z) :
  W <= 0 -> 0 <= T -> (1 <= z)%Z ->
  B64.fits R (Fin W) (Fin T) (Fin (inject_Z z)) = false.
Proof.
  intros HW HT Hz. unfold B64.fits, B64.maxCols, MIN_WIDTH.
  rewrite !rdiv_fin by (try apply inject_Z_pos_neq0; try discriminate; lia).
  assert (Ht0 : 0 < inject_Z z)
    by (change (inject_Z 0 < inject_Z z); rewrite <- Zlt_Qlt; lia).
  assert (Hq : 0 <= T / inject_Z z) by now apply Qdiv_nonneg.
  assert (Hw : W / 100 <= 0).
  { assert (E : W / 100 == - (- W / 100)) by field.
    rewrite E. pose proof (Qdiv_nonneg (- W) 100). 
    assert (0 <= - W / 100) by (apply H; [reflexivity | lra]). lra. }
  destruct (rfin_nonneg R _ Hq) as [[_ ->] | [_ ->]];
    destruct (rfin_nonpos R _ Hw) as [[_ ->] | [_ ->]];
    cbn [Math_floor num_lt]; try reflexivity.
  apply not_true_iff_false. rewrite Qltb_lt, <- Zlt_Qlt.
  pose proof (Qfloor_nonneg _ (rnd_nonneg R _ Hq)).
  assert (Qfloor (rnd R (W / 100)) <= 0)%Z.
  { apply (Qfloor_resp_le _ 0). now apply rnd_nonpos. }
  lia.
Qed.

Lemma B64_no_room_fallback (W T : Q) :
  W <= 0 -> 0 <= T -> B64.timeOption R (Fin W) (Fin T) = Fin 1.
Proof.
  intros HW HT. rewrite B64_first_fit, find_nowhere; [reflexivity |].
  intros t Ht. destruct (OPTIONS_integers t Ht) as (z & -> & Hz).
  apply B64_no_room; [assumption .. | lia].
Qed.

(** The quotient of a representable duration by 1 is the duration. *)
Lemma rdiv_one (T : Q) :
  0 <= T -> T < OVERFLOW -> representable R T ->
  exists a, B64.rdiv R (Fin T) (Fin 1) = Fin a /\ a == T.
Proof.
  intros H0 Ho Hr.
  rewrite rdiv_fin by discriminate.
  assert (E : T / 1 == T) by field.
  destruct (rfin_nonneg R (T / 1)) as [[_ ->] | [Hc _]]; [lra | | lra].
  eexists. split; [reflexivity |].
  rewrite (rnd_proper R _ _ E). exact Hr.
Qed.

(** C6 (as amended).  The component does not render nothing for negative
    inputs.  A [totalTime] of at most -2^-1022 (every negative normal
    binary64 number) makes it throw a RangeError, whatever the width: the
    column count is negative or minus infinity.  A negative [totalWidth]
    with a [totalTime] that is not negative selects the fallback interval 1
    and asks for floor(totalTime) columns: it renders that many elements
    when the count is within the array limits, and throws otherwise. *)
Theorem C6_negative_inputs (W T : Q) :
  (T <= - MIN_NORMAL ->
   B64.GridLines R engine_max (mkProps (Fin W) (Fin T)) = Throw RangeError) /\
  (W < 0 -> 0 <= T -> T < OVERFLOW -> representable R T ->
   B64.timeOption R (Fin W) (Fin T) = Fin 1 /\
   B64.numCols R (Fin W) (Fin T) = Fin (inject_Z (Qfloor T)) /\
   ((Qfloor T <= Z.min MAX_ARRAY_LENGTH engine_max)%Z ->
    exists ticks,
      B64.GridLines R engine_max (mkProps (Fin W) (Fin T)) = Ok ticks /\
      List.length ticks = Z.to_nat (Qfloor T)) /\
   ((Z.min MAX_ARRAY_LENGTH engine_max < Qfloor T)%Z ->
    B64.GridLines R engine_max (mkProps (Fin W) (Fin T)) = Throw RangeError)).
Proof.
  split.
  - intros HT.
    destruct (B64_timeOption_integer R (Fin W) (Fin T)) as (z & Ez & Hz).
    destruct (rdiv_negative R T z HT Hz) as [E | (a & E & Ha)].
    + apply B64_render_not_finite. rewrite Ez, E. discriminate.
    + apply B64_render_throw with (n := Qfloor a).
      * apply B64_numCols_floor. now rewrite Ez.
      * left. now apply Qfloor_neg.
  - intros HW H0 Ho Hr.
    assert (Et : B64.timeOption R (Fin W) (Fin T) = Fin 1)
      by (apply B64_no_room_fallback; lra).
    destruct (rdiv_one T H0 Ho Hr) as (a & Ea & Eq).
    assert (En : B64.numCols R (Fin W) (Fin T) = Fin (inject_Z (Qfloor T))).
    { rewrite <- (Qfloor_comp _ _ Eq). apply B64_numCols_floor.
      now rewrite Et. }
    repeat split; [exact Et | exact En | |].
    + intros Hn. eexists. split.
      * apply B64_render_ok with (n := Qfloor T); [exact En |].
        split; [now apply Qfloor_nonneg | exact Hn].
      * now rewrite length_map, length_seq.
    + intros Hn. apply B64_render_throw with (n := Qfloor T);
        [exact En | now right].
Qed.
End B64_negative.

Lemma C6_negative_inputs_witness :
  B64.GridLines binary64 134217727 (mkProps (Fin 500) (Fin (-1000))) =
  Throw RangeError /\
  exists ticks,
    B64.GridLines binary64 134217727 (mkProps (Fin (-500)) (Fin 3)) =
    Ok ticks /\
    List.length ticks = 3%nat.
Proof.
  split.
  - apply (proj1 (C6_negative_inputs binary64 134217727 500 (-1000))).
    vm_compute. discriminate.
  - refine (proj1 (proj2 (proj2 (proj2 (C6_negative_inputs binary64
              134217727 (-500) 3) _ _ _ _))) _).
    + reflexivity.
    + discriminate.
    + reflexivity.
    + apply (rnd_int binary64 3). discriminate.
    + vm_compute. discriminate.
Defined.

(** ** What is rendered *)

Section B64_ticks.
Variable R : rounding.
Variable engine_max : Z.

Lemma Qle_bool_proper (a x y : Q) : x == y -> Qle_bool a x = Qle_bool a y.
Proof.
  intros E. apply eq_true_iff_eq. rewrite !Qle_bool_iff. now rewrite E.
Qed.

Lemma Qltb_proper (x y a : Q) : x == y -> Qltb x a = Qltb y a.
Proof.
  intros E. apply eq_true_iff_eq. rewrite !Qltb_lt. now rewrite E.
Qed.

Lemma rfin_proper (x y : Q) : x == y -> num_eq (B64.rfin R x) (B64.rfin R y).
Proof.
  intros E. unfold B64.rfin.
  rewrite (Qle_bool_proper OVERFLOW (Qabs x) (Qabs y)) by now rewrite E.
  rewrite (Qltb_proper x y 0 E).
  destruct (Qle_bool OVERFLOW (Qabs y)).
  - destruct (Qltb y 0); exact I.
  - simpl. now apply rnd_proper.
Qed.

(** A product depends on the value of its first factor only. *)
Lemma rmul_proper_l (a b : Q) (y : number) :
  a == b -> num_eq (B64.rmul R (Fin a) y) (B64.rmul R (Fin b) y).
Proof.
  intros E. destruct y as [c | | |]; cbn [B64.rmul].
  - apply rfin_proper. now rewrite E.
  - assert (C : (a ?= 0) = (b ?= 0)) by now rewrite E.
    unfold num_mul. rewrite C. destruct (b ?= 0); exact I.
  - assert (C : (a ?= 0) = (b ?= 0)) by now rewrite E.
    unfold num_mul. rewrite C. destruct (b ?= 0); exact I.
  - exact I.
Qed.

(** An integer result below 2^53 in magnitude is exact. *)
Lemma rfin_integer (x : Q) (z : Z) :
  x == inject_Z z -> (Z.abs z <= 2 ^ 53)%Z ->
  exists a, B64.rfin R x = Fin a /\ a == inject_Z z.
Proof.
  intros E Hz. unfold B64.rfin.
  assert (Ha : Qabs x == inject_Z (Z.abs z)).
  { rewrite E. unfold Qabs, inject_Z. reflexivity. }
  destruct (Qle_bool OVERFLOW (Qabs x)) eqn:L.
  - apply Qle_bool_iff in L. rewrite Ha in L. unfold OVERFLOW in L.
    rewrite <- Zle_Qle in L.
    assert (2 ^ 53 < 2 ^ 1024 - 2 ^ 970)%Z by reflexivity. lia.
  - eexists. split; [reflexivity |].
    rewrite (rnd_proper R _ _ E). now apply rnd_int.
Qed.

(** [i + 1] of line 46 is the next integer. *)
Lemma B64_index (j : nat) :
  (Z.of_nat j < 2 ^ 52)%Z ->
  exists a, B64.radd R (of_nat j) (Fin 1) = Fin a /\
            a == inject_Z (Z.of_nat (S j)).
Proof.
  intros H. unfold of_nat. cbn [B64.radd].
  apply rfin_integer.
  - rewrite Nat2Z.inj_succ, <- Z.add_1_r, inject_Z_plus. reflexivity.
  - assert (2 ^ 52 + 1 <= 2 ^ 53)%Z by discriminate. lia.
Qed.

(** The quotient of a positive duration by the selected interval. *)
Lemma rdiv_duration (T : Q) (z : Z) :
  0 <= T -> T < OVERFLOW -> (1 <= z)%Z ->
  B64.rdiv R (Fin T) (Fin (inject_Z z)) = Fin (rnd R (T / inject_Z z)).
Proof.
  intros H0 Ho Hz.
  rewrite rdiv_fin by (apply inject_Z_pos_neq0; lia).
  assert (Ht1 : 1 <= inject_Z z)
    by (change (inject_Z 1 <= inject_Z z); rewrite <- Zle_Qle; lia).
  assert (Hq : 0 <= T / inject_Z z) by (apply Qdiv_nonneg; lra).
  assert (Hle : T / inject_Z z <= T).
  { assert (E : T == T / 1) by field. rewrite E at 2.
    apply Qdiv_le_den; [exact H0 | reflexivity | exact Ht1]. }
  destruct (rfin_nonneg R _ Hq) as [[_ ->] | [Hc _]]; [reflexivity | lra].
Qed.

(** C7 (as amended).  For positive [totalWidth] and [totalTime] the
    component asks for numCols = floor(totalTime / timeOption) elements,
    with the quotient rounded to binary64.  When that count is within the
    array limits exactly numCols elements are rendered, and the i-th
    (counted from 1) has its line at left i * widthPerCol rounded, its
    label at that offset plus 4 rounded, and the text i * timeOption
    followed by "ms", where widthPerCol is (timeOption / totalTime) *
    totalWidth with the quotient and the product rounded.  Beyond the array
    limits the component throws a RangeError. *)
Theorem C7_rendering (W T t : Q) :
  0 < W -> 0 < T -> T < OVERFLOW ->
  B64.timeOption R (Fin W) (Fin T) = Fin t ->
  B64.numCols R (Fin W) (Fin T) = Fin (inject_Z (Qfloor (rnd R (T / t)))) /\
  B64.widthPerCol R (Fin W) (Fin T) =
    B64.rmul R (B64.rdiv R (Fin t) (Fin T)) (Fin W) /\
  ((Qfloor (rnd R (T / t)) <= Z.min MAX_ARRAY_LENGTH engine_max)%Z ->
   exists ticks,
     B64.GridLines R engine_max (mkProps (Fin W) (Fin T)) = Ok ticks /\
     List.length ticks = Z.to_nat (Qfloor (rnd R (T / t))) /\
     forall i, (1 <= i <= List.length ticks)%nat ->
       exists k v,
         nth_error ticks (i - 1) = Some k /\
         num_eq (line_left k)
           (B64.rmul R (Fin (inject_Z (Z.of_nat i)))
              (B64.widthPerCol R (Fin W) (Fin T))) /\
         label_left k = B64.radd R (line_left k) (Fin 4) /\
         label_children k = (v, "ms"%string) /\
         num_eq v (Fin (inject_Z (Z.of_nat i) * t))) /\
  ((Z.min MAX_ARRAY_LENGTH engine_max < Qfloor (rnd R (T / t)))%Z ->
   B64.GridLines R engine_max (mkProps (Fin W) (Fin T)) = Throw RangeError).
Proof.
  intros HW HT Ho Et.
  destruct (B64_timeOption_integer R (Fin W) (Fin T)) as (z & Ez & Hz).
  assert (t = inject_Z z) by congruence. subst t.
  assert (Eq : B64.rdiv R (Fin T) (B64.timeOption R (Fin W) (Fin T)) =
               Fin (rnd R (T / inject_Z z)))
    by (rewrite Et; apply rdiv_duration; [lra | exact Ho | lia]).
  pose proof (B64_numCols_floor R _ _ _ Eq) as En.
  remember (Qfloor (rnd R (T / inject_Z z))) as n eqn:Hn.
  assert (Hn0 : (0 <= n)%Z).
  { subst n. apply Qfloor_nonneg, rnd_nonneg, Qdiv_nonneg; [| lra].
    change (inject_Z 0 < inject_Z z). rewrite <- Zlt_Qlt. lia. }
  split; [exact En |].
  split; [unfold B64.widthPerCol; now rewrite Et |].
  split.
  - intros Hle.
    eexists. split; [apply (B64_render_ok R engine_max _ _ n En); lia |].
    rewrite length_map, length_seq. split; [reflexivity |].
    intros i Hi.
    assert (Hj : (i - 1 < Z.to_nat n)%nat) by lia.
    assert (Hb : (Z.of_nat (i - 1) < 2 ^ 52)%Z).
    { unfold MAX_ARRAY_LENGTH in Hle.
      assert (4294967295 < 2 ^ 52)%Z by reflexivity. lia. }
    destruct (B64_index (i - 1) Hb) as (a & Ea & Eai).
    replace (S (i - 1)) with i in Eai by lia.
    exists (B64.tick R (Fin W) (Fin T) (i - 1)).
    exists (B64.rmul R (B64.radd R (of_nat (i - 1)) (Fin 1))
              (B64.timeOption R (Fin W) (Fin T))).
    split; [now apply nth_error_ticks |].
    split; [| split; [reflexivity | split; [reflexivity |]]].
    + cbn [B64.tick line_left]. rewrite Ea. now apply rmul_proper_l.
    + rewrite Ea, Et. cbn [B64.rmul].
      destruct (rfin_integer (a * inject_Z z) (Z.of_nat i * z)) as (b & -> & Eb).
      * rewrite Eai, inject_Z_mult. reflexivity.
      * unfold MAX_ARRAY_LENGTH in Hle. nia.
      * cbn [num_eq]. rewrite Eb, inject_Z_mult. reflexivity.
  - intros Hgt. apply (B64_render_throw R engine_max _ _ n En). now right.
Qed.
End B64_ticks.

Lemma C7_rendering_witness :
  exists ticks,
    B64.GridLines binary64 134217727 (mkProps (Fin 1000) (Fin 2000)) =
    Ok ticks /\
    List.length ticks = 4%nat.
Proof.
  destruct (proj1 (proj2 (proj2 (C7_rendering binary64 134217727
              1000 2000 500 eq_refl eq_refl eq_refl eq_refl)))) as
    (ticks & E & L & _).
  - vm_compute. discriminate.
  - exists ticks. split; [exact E | exact L].
Defined.

(** ** The column width *)

Section B64_width.
Variable R : rounding.

Lemma Qdiv_le_self (a t : Q) : 0 <= a -> 1 <= t -> a / t <= a.
Proof.
  intros Ha Ht. assert (E : a == a / 1) by field. rewrite E at 2.
  apply Qdiv_le_den; [exact Ha | reflexivity | exact Ht].
Qed.

(** What the test of line 18 says when it passes. *)
Lemma B64_fits_inv (W T t : Q) :
  0 < W -> W < OVERFLOW -> 0 < T -> 1 <= t ->
  B64.fits R (Fin W) (Fin T) (Fin t) = true ->
  T / t < OVERFLOW /\
  rnd R (T / t) < rnd R (W / 100) /\
  1 <= rnd R (W / 100).
Proof.
  intros HW Ho HT Ht. unfold B64.fits, B64.maxCols, MIN_WIDTH.
  rewrite !rdiv_fin by (intros E; lra).
  assert (Hq : 0 <= T / t) by (apply Qdiv_nonneg; lra).
  assert (Hp : 0 <= W / 100) by (apply Qdiv_nonneg; [reflexivity | lra]).
  assert (Hp' : W / 100 <= W) by (apply Qdiv_le_self; [lra | discriminate]).
  destruct (rfin_nonneg R _ Hp) as [[_ ->] | [Hc _]]; [| lra].
  destruct (rfin_nonneg R _ Hq) as [[Hx ->] | [_ ->]];
    [| cbn [Math_floor num_lt]; discriminate].
  rewrite num_lt_floor. intros H. apply Z.ltb_lt in H.
  pose proof (Qfloor_nonneg _ (rnd_nonneg R _ Hq)) as Hq0.
  pose proof (Qfloor_le (rnd R (W / 100))) as Hfp.
  pose proof (Qlt_floor (rnd R (T / t))) as Hfq.
  assert (H1 : inject_Z (Qfloor (rnd R (T / t)) + 1) <=
               inject_Z (Qfloor (rnd R (W / 100))))
    by (rewrite <- Zle_Qle; lia).
  assert (H2 : inject_Z 1 <= inject_Z (Qfloor (rnd R (W / 100))))
    by (rewrite <- Zle_Qle; lia).
  change (inject_Z 1) with 1 in H2.
  repeat split; [exact Hx | lra | lra].
Qed.

(** The rounding of a number of at least 1/2, relative to the number. *)
Lemma rnd_above_half (x : Q) :
  1 # 2 <= x -> x < OVERFLOW ->
  x * (1 - u64 - 2 * eta64) <= rnd R x /\
  rnd R x <= x * (1 + u64 + 2 * eta64).
Proof.
  intros Hx Ho.
  destruct (rnd_accurate R x) as [Hl Hu]; [lra | exact Ho |].
  assert (He : 0 < eta64) by reflexivity.
  split; nra.
Qed.

(** C10 (as amended).  For positive [totalWidth] and [totalTime], whenever
    the selected interval is not the fallback 1 it is an option of the
    list, and the column width the code computes, with its quotient and its
    product rounded to binary64, is greater than 100 * (1 - 2^-50).  It
    need not be greater than 100. *)
Theorem C10_column_width (W T : Q) :
  0 < W -> W < OVERFLOW -> 0 < T ->
  B64.timeOption R (Fin W) (Fin T) <> Fin 1 ->
  exists t,
    In t OPTIONS /\
    B64.timeOption R (Fin W) (Fin T) = Fin t /\
    (Fin (100 * (1 - slack64)) <? B64.widthPerCol R (Fin W) (Fin T))%num =
    true.
Proof.
  intros HW Ho HT Hsel.
  destruct (B64_chosen R _ _ Hsel) as (t & Hin & Et & Hfit).
  exists t. split; [exact Hin |]. split; [exact Et |].
  destruct (OPTIONS_integers t Hin) as (z & -> & Hz).
  set (t := inject_Z z) in *.
  assert (Ht1 : 100 <= t)
    by (change (inject_Z 100 <= inject_Z z); rewrite <- Zle_Qle; lia).
  assert (Ht2 : t <= 60000)
    by (change (inject_Z z <= inject_Z 60000); rewrite <- Zle_Qle; lia).
  destruct (B64_fits_inv W T t HW Ho HT) as (Hx & Hqp & Hp1);
    [lra | exact Hfit |].
  unfold B64.widthPerCol. rewrite Et.
  rewrite rdiv_fin by (intros E; lra).
  set (x := T / t) in *. set (y := t / T). set (A := W / 100) in *.
  assert (Hxy : x * y == 1) by (unfold x, y; field; split; lra).
  assert (HWA : W == 100 * A) by (unfold A; field).
  assert (Hx0 : 0 < x) by (unfold x; apply Qlt_shift_div_l; lra).
  assert (Hy0 : 0 < y) by (unfold y; apply Qlt_shift_div_l; lra).
  assert (HA0 : 0 < A) by (unfold A; apply Qlt_shift_div_l; lra).
  assert (HAo : A < OVERFLOW / 100).
  { unfold A. apply Qlt_shift_div_l; [reflexivity |].
    assert (E : W / 100 * 100 == W) by field. lra. }
  (* the width is at least about 100 / (1 + 2^-53) *)
  assert (Hu : 0 < u64) by reflexivity.
  assert (He : 0 < eta64) by reflexivity.
  assert (HpA : rnd R A <= A + (u64 * A + eta64)).
  { apply (rnd_accurate R A); [lra |].
    apply Qlt_trans with (1 := HAo). reflexivity. }
  assert (HA1 : 99 # 100 <= A).
  { assert (C : (1 + u64) * (99 # 100) + eta64 < 1) by reflexivity. nra. }
  destruct (rfin_nonneg R y) as [[Hyo ->] | [_ ->]]; [lra | |].
  2:{ cbn [B64.rmul num_mul].
      assert (C : (W ?= 0) = Gt) by (apply Qgt_alt; exact HW).
      rewrite C. reflexivity. }
  cbn [B64.rmul].
  assert (Hr0 : 0 <= rnd R y) by (apply rnd_nonneg; lra).
  destruct (rfin_nonneg R (rnd R y * W)) as [[Hco ->] | [_ ->]];
    [nra | | reflexivity].
  cbn [num_lt]. apply Qltb_lt.
  destruct (Qlt_le_dec y 2) as [Hy2 | Hy2].
  - (* the duration is more than half the interval *)
    assert (Hxh : 1 # 2 <= x) by nra.
    destruct (rnd_above_half x Hxh Hx) as [Hql _].
    assert (HpA' : rnd R A <= A * (1 + u64 + 2 * eta64)) by nra.
    set (k5 := 1 - u64 - 2 * eta64) in *.
    set (k1 := 1 + u64 + 2 * eta64) in *.
    assert (Hk5 : 0 < k5) by reflexivity.
    assert (Hk1 : 0 < k1) by reflexivity.
    assert (HxA : x * k5 < A * k1) by lra.
    (* the quotient t / T is a normal number *)
    assert (Hyn : MIN_NORMAL <= y).
    { assert (Hxb : x * k5 < OVERFLOW / 100 * k1) by nra.
      assert (C : OVERFLOW / 100 * k1 * MIN_NORMAL < k5) by reflexivity.
      assert (Hm : 0 < MIN_NORMAL) by reflexivity.
      apply Qnot_lt_le. intros Hc.
      assert (x * k5 * y < OVERFLOW / 100 * k1 * MIN_NORMAL).
      { apply Qmult_lt_compat_nonneg; split; try lra; nra. }
      assert (E : x * k5 * y == k5 * (x * y)) by ring.
      rewrite E, Hxy in H. lra. }
    destruct (rnd_rel R y Hyn Hyo) as [Hrl _].
    assert (HP : k5 < A * y * k1).
    { assert (x * k5 * y < A * k1 * y) by (apply Qmult_lt_compat_r; lra).
      assert (E : x * k5 * y == k5 * (x * y)) by ring.
      rewrite E, Hxy in H.
      assert (E' : A * k1 * y == A * y * k1) by ring. lra. }
    set (P := A * y) in *.
    assert (Hc : 100 * (P * (1 - two_u64)) <= rnd R y * W).
    { assert (y * (1 - two_u64) * W <= rnd R y * W)
        by (apply Qmult_le_compat_r; lra).
      assert (E : y * (1 - two_u64) * W == 100 * (A * y * (1 - two_u64)))
        by (rewrite HWA; ring).
      fold P in E. lra. }
    destruct (rnd_accurate R (rnd R y * W)) as [Hwl _];
      [nra | exact Hco |].
    set (c := rnd R y * W) in *.
    assert (Hkk : k5 = 1 - u64 - 2 * eta64) by reflexivity.
    assert (Hkk1 : k1 = 1 + u64 + 2 * eta64) by reflexivity.
    clearbody k5 k1 P c.
    unfold slack64, two_u64, u64, eta64 in *.
    cbv [Pos.pow Pos.iter Pos.mul Pos.add Pos.succ] in *.
    subst k5 k1. nra.
  - (* the duration is at most half the interval *)
    assert (H2 : 2 <= rnd R y).
    { rewrite <- (rnd_int R 2) by discriminate. now apply rnd_mono. }
    assert (H198 : 198 <= rnd R y * W) by nra.
    apply Qlt_le_trans with 198; [reflexivity |].
    rewrite <- (rnd_int R 198) by discriminate. now apply rnd_mono.
Qed.
End B64_width.

Lemma C10_column_width_witness :
  exists t,
    In t OPTIONS /\
    B64.timeOption binary64 (Fin 1000) (Fin 2000) = Fin t /\
    (Fin (100 * (1 - slack64)) <?
     B64.widthPerCol binary64 (Fin 1000) (Fin 2000))%num = true.
Proof.
  apply (C10_column_width binary64 1000 2000);
    [reflexivity | reflexivity | reflexivity |].
  vm_compute. discriminate.
Defined.

(** ** The position of the lines *)

Section B64_within.
Variable R : rounding.
Variable engine_max : Z.

(** A finite quotient of two positive numbers is the rounded quotient. *)
Lemma rdiv_pos_inv (a b q : Q) :
  0 < a -> 0 < b -> B64.rdiv R (Fin a) (Fin b) = Fin q ->
  a / b < OVERFLOW /\ q = rnd R (a / b).
Proof.
  intros Ha Hb. rewrite rdiv_fin by (intros E; lra).
  assert (H0 : 0 <= a / b) by (apply Qdiv_nonneg; lra).
  destruct (rfin_nonneg R _ H0) as [[Hx ->] | [_ ->]]; [| discriminate].
  intros [= <-]. split; [exact Hx | reflexivity].
Qed.

(** C9 (as amended).  For a positive [totalTime] and a [totalWidth] from
    2^-990 to 2^1022, every rendered line is at an offset from 0 to
    totalWidth * (1 + 2^-50): the offsets the code computes, with every
    quotient and product rounded to binary64, stay within the available
    width up to that relative error.  They can exceed totalWidth itself. *)
Theorem C9_within_width (W T : Q) (ticks : list Tick) :
  tiny_width <= W -> W <= huge_width -> 0 < T ->
  B64.GridLines R engine_max (mkProps (Fin W) (Fin T)) = Ok ticks ->
  Forall (fun k => exists o, line_left k = Fin o /\
                             0 <= o /\ o <= W * (1 + slack64)) ticks.
Proof.
  intros HWl HWh HT Hrun.
  assert (Htw : 0 < tiny_width) by reflexivity.
  assert (HW : 0 < W) by lra.
  destruct (B64_render_inv R engine_max _ _ _ Hrun) as (a & Ea & Hn & ->).
  destruct (B64_timeOption_integer R (Fin W) (Fin T)) as (z & Ez & Hz).
  rewrite Ez in Ea.
  assert (Ht1 : 1 <= inject_Z z)
    by (change (inject_Z 1 <= inject_Z z); rewrite <- Zle_Qle; lia).
  destruct (rdiv_pos_inv T (inject_Z z) a HT) as [Hxo Ha]; [lra | exact Ea |].
  apply Forall_forall. intros k Hk.
  apply in_map_iff in Hk. destruct Hk as (j & <- & Hj).
  apply in_seq in Hj.
  cbn [B64.tick line_left]. unfold B64.widthPerCol. rewrite Ez.
  set (t := inject_Z z) in *. set (x := T / t) in *. set (y := t / T).
  assert (Hxy : x * y == 1) by (unfold x, y; field; split; lra).
  assert (Hx0 : 0 < x) by (unfold x; apply Qlt_shift_div_l; lra).
  assert (Hy0 : 0 < y) by (unfold y; apply Qlt_shift_div_l; lra).
  assert (Hu : 0 < u64) by reflexivity.
  assert (He : 0 < eta64) by reflexivity.
  (* the index *)
  assert (Hmax : (MAX_ARRAY_LENGTH < 2 ^ 32)%Z) by reflexivity.
  assert (Hjb : (Z.of_nat j < 2 ^ 52)%Z).
  { assert (2 ^ 32 < 2 ^ 52)%Z by reflexivity. lia. }
  destruct (B64_index R j Hjb) as (m & -> & Em).
  assert (Hm1 : 1 <= m).
  { rewrite Em. change (inject_Z 1 <= inject_Z (Z.of_nat (S j))).
    rewrite <- Zle_Qle. lia. }
  assert (Hma : m <= a).
  { apply Qle_trans with (inject_Z (Qfloor a)); [| apply Qfloor_le].
    rewrite Em, <- Zle_Qle. lia. }
  assert (Hm32 : m <= inject_Z (2 ^ 32)).
  { rewrite Em, <- Zle_Qle. lia. }
  (* the duration is at least half the interval, and less than 2^33 of it *)
  assert (Hax : rnd R x <= x + (u64 * x + eta64))
    by (apply (rnd_accurate R x); [lra | exact Hxo]).
  rewrite <- Ha in Hax.
  assert (Hxh : 1 # 2 <= x).
  { apply Qnot_lt_le. intros Hc.
    assert (C : (1 # 2) + (u64 * (1 # 2) + eta64) < 1) by reflexivity.
    nra. }
  destruct (rnd_above_half R x Hxh Hxo) as [_ Hau]. rewrite <- Ha in Hau.
  set (k1 := 1 + u64 + 2 * eta64) in *.
  assert (Hk1 : 1 <= k1 /\ k1 <= 2) by (split; discriminate).
  assert (Hy2 : y <= 2).
  { assert (y * (1 # 2) <= y * x) by (apply Qmult_le_l; lra).
    rewrite (Qmult_comm y x), Hxy in H. lra. }
  (* the column width *)
  assert (Hyo : y < OVERFLOW) by (apply Qle_lt_trans with 2; [lra | reflexivity]).
  rewrite rdiv_fin by (intros E; lra). fold y.
  destruct (rfin_nonneg R y) as [[_ ->] | [Hc _]]; [lra | | lra].
  cbn [B64.rmul].
  destruct (rnd_accurate R y) as [_ Hru]; [lra | exact Hyo |].
  assert (Hr0 : 0 <= rnd R y) by (apply rnd_nonneg; lra).
  set (r := rnd R y) in *.
  assert (Hc0 : 0 <= r * W) by nra.
  assert (Hhw : huge_width * 3 < OVERFLOW) by reflexivity.
  assert (Hh0 : 0 < huge_width) by reflexivity.
  assert (Hr3 : r <= 3).
  { assert (C : 2 + (u64 * 2 + eta64) <= 3) by discriminate. nra. }
  assert (Hco : r * W < OVERFLOW) by nra.
  destruct (rfin_nonneg R (r * W) Hc0) as [[_ ->] | [Hc _]]; [| lra].
  cbn [B64.rmul].
  destruct (rnd_accurate R (r * W) Hc0 Hco) as [_ Hwu].
  assert (Hw0 : 0 <= rnd R (r * W)) by now apply rnd_nonneg.
  set (w := rnd R (r * W)) in *.
  (* m * (r * W) is at most about W *)
  set (k2 := 1 + u64) in *.
  assert (Hmc : m * (r * W) <= k1 * k2 * W + inject_Z (2 ^ 34) * eta64 * W).
  { assert (H1 : m * r <= x * k1 * (y * k2 + eta64)).
    { apply Qmult_le_compat_nonneg; split; try lra.
      unfold k2. lra. }
    assert (E1 : x * k1 * (y * k2 + eta64) ==
                 k1 * k2 * (x * y) + k1 * eta64 * x) by ring.
    rewrite E1, Hxy in H1.
    assert (Hx33 : x <= inject_Z (2 ^ 33)).
    { apply Qnot_lt_le. intros Hc.
      destruct (rnd_above_half R x Hxh Hxo) as [Hal _]. rewrite <- Ha in Hal.
      assert (Hfa : inject_Z (Qfloor a) <= inject_Z (2 ^ 32 - 1))
        by (rewrite <- Zle_Qle; lia).
      pose proof (Qlt_floor a) as Hlf.
      rewrite inject_Z_plus in Hlf. change (inject_Z 1) with 1 in Hlf.
      assert (C2 : inject_Z (2 ^ 32 - 1) + 1 <=
                   inject_Z (2 ^ 33) * (1 - u64 - 2 * eta64))
        by (vm_compute; discriminate).
      assert (inject_Z (2 ^ 33) * (1 - u64 - 2 * eta64) <
              x * (1 - u64 - 2 * eta64)).
      { apply Qmult_lt_compat_r; [reflexivity | exact Hc]. }
      lra. }
    assert (H2 : m * r * W <= (k1 * k2 * 1 + k1 * eta64 * x) * W)
      by (apply Qmult_le_compat_r; lra).
    assert (H3 : k1 * eta64 * x <= inject_Z (2 ^ 34) * eta64).
    { assert (k1 * x <= 2 * inject_Z (2 ^ 33)).
      { apply Qmult_le_compat_nonneg; split; lra. }
      assert (E3 : 2 * inject_Z (2 ^ 33) == inject_Z (2 ^ 34)) by reflexivity.
      assert (k1 * x * eta64 <= inject_Z (2 ^ 34) * eta64).
      { apply Qmult_le_compat_r; lra. }
      assert (E4 : k1 * eta64 * x == k1 * x * eta64) by ring. lra. }
    assert (H4 : k1 * eta64 * x * W <= inject_Z (2 ^ 34) * eta64 * W)
      by (apply Qmult_le_compat_r; lra).
    assert (E5 : m * (r * W) == m * r * W) by ring.
    assert (E6 : (k1 * k2 * 1 + k1 * eta64 * x) * W ==
                 k1 * k2 * W + k1 * eta64 * x * W) by ring.
    lra. }
  (* m * w *)
  assert (Hmw : m * w <= m * (r * W) * k2 + inject_Z (2 ^ 32) * eta64).
  { assert (H1 : m * w <= m * (r * W + (u64 * (r * W) + eta64)))
      by (apply Qmult_le_l; lra).
    assert (E1 : m * (r * W + (u64 * (r * W) + eta64)) ==
                 m * (r * W) * k2 + m * eta64) by (unfold k2; ring).
    assert (H2 : m * eta64 <= inject_Z (2 ^ 32) * eta64)
      by (apply Qmult_le_compat_r; lra).
    lra. }
  assert (Hmw0 : 0 <= m * w) by (apply Qmult_le_0_compat; lra).
  set (c := m * (r * W)) in *. set (s := m * w) in *.
  assert (Hso : s < OVERFLOW).
  { assert (C : (k1 * k2 * huge_width +
                 inject_Z (2 ^ 34) * eta64 * huge_width) * k2 +
                inject_Z (2 ^ 32) * eta64 < OVERFLOW) by reflexivity.
    assert (Hcw : c <= k1 * k2 * huge_width +
                       inject_Z (2 ^ 34) * eta64 * huge_width).
    { apply Qle_trans with (1 := Hmc).
      assert (k1 * k2 * W <= k1 * k2 * huge_width)
        by (apply Qmult_le_l; [reflexivity | exact HWh]).
      assert (inject_Z (2 ^ 34) * eta64 * W <=
              inject_Z (2 ^ 34) * eta64 * huge_width)
        by (apply Qmult_le_l; [reflexivity | exact HWh]).
      lra. }
    assert (c * k2 <= (k1 * k2 * huge_width +
                       inject_Z (2 ^ 34) * eta64 * huge_width) * k2)
      by (apply Qmult_le_compat_r; [exact Hcw | discriminate]).
    lra. }
  destruct (rfin_nonneg R s Hmw0) as [[_ ->] | [Hc _]]; [| lra].
  destruct (rnd_accurate R s Hmw0 Hso) as [_ Hou].
  exists (rnd R s). split; [reflexivity |].
  split; [now apply rnd_nonneg |].
  (* the sum of the errors *)
  assert (K : ((k1 * k2 + inject_Z (2 ^ 34) * eta64) * k2) * (1 + u64) +
              (inject_Z (2 ^ 32) * eta64 * (1 + u64) + eta64) *
              inject_Z (2 ^ 990) <= 1 + slack64) by (vm_compute; discriminate).
  assert (Ht : 1 <= inject_Z (2 ^ 990) * W).
  { assert (inject_Z (2 ^ 990) * tiny_width <= inject_Z (2 ^ 990) * W)
      by (apply Qmult_le_l; [reflexivity | exact HWl]).
    assert (E : inject_Z (2 ^ 990) * tiny_width == 1) by reflexivity.
    lra. }
  set (K1 := (k1 * k2 + inject_Z (2 ^ 34) * eta64) * k2) in *.
  set (E2 := inject_Z (2 ^ 32) * eta64 * (1 + u64) + eta64) in *.
  assert (HE2 : 0 <= E2) by discriminate.
  assert (H1 : s <= K1 * W + inject_Z (2 ^ 32) * eta64).
  { assert (c * k2 <= (k1 * k2 * W + inject_Z (2 ^ 34) * eta64 * W) * k2)
      by (apply Qmult_le_compat_r; [exact Hmc | discriminate]).
    assert (E : (k1 * k2 * W + inject_Z (2 ^ 34) * eta64 * W) * k2 ==
                K1 * W) by (unfold K1; ring).
    lra. }
  assert (H2 : rnd R s <= K1 * (1 + u64) * W + E2).
  { assert (s * (1 + u64) <= (K1 * W + inject_Z (2 ^ 32) * eta64) * (1 + u64))
      by (apply Qmult_le_compat_r; [exact H1 | discriminate]).
    assert (E : (K1 * W + inject_Z (2 ^ 32) * eta64) * (1 + u64) + eta64 ==
                K1 * (1 + u64) * W + E2) by (unfold E2; ring).
    lra. }
  assert (H3 : E2 <= E2 * (inject_Z (2 ^ 990) * W)).
  { assert (E2 * 1 <= E2 * (inject_Z (2 ^ 990) * W))
      by (apply Qmult_le_l; [reflexivity | exact Ht]).
    lra. }
  assert (H4 : (K1 * (1 + u64) + E2 * inject_Z (2 ^ 990)) * W <=
               (1 + slack64) * W)
    by (apply Qmult_le_compat_r; lra).
  assert (E : (K1 * (1 + u64) + E2 * inject_Z (2 ^ 990)) * W ==
              K1 * (1 + u64) * W + E2 * (inject_Z (2 ^ 990) * W)) by ring.
  assert (E' : (1 + slack64) * W == W * (1 + slack64)) by ring.
  lra.
Qed.
End B64_within.

Lemma C9_within_width_witness :
  exists ticks,
    B64.GridLines binary64 134217727 (mkProps (Fin 641) (Fin 500)) =
    Ok ticks /\
    Forall (fun k => exists o, line_left k = Fin o /\
                               0 <= o /\ o <= 641 * (1 + slack64)) ticks.
Proof.
  eexists. split; [vm_compute; reflexivity |].
  apply (C9_within_width binary64 134217727 641 500);
    [vm_compute; discriminate | vm_compute; discriminate | reflexivity |
     vm_compute; reflexivity].
Defined.

(** ** Further properties under rounding *)

Section B64_more.
Variable R : rounding.
Variable engine_max : Z.

(** For a duration that is not negative, a coarser interval passes the test
    of line 18 whenever a finer one does: the rounded quotients are ordered
    as the exact ones. *)
Lemma B64_fits_coarser (width : number) (T t u : Q) :
  0 <= T -> 0 < t -> t <= u ->
  B64.fits R width (Fin T) (Fin t) = true ->
  B64.fits R width (Fin T) (Fin u) = true.
Proof.
  intros HT Ht Hu. unfold B64.fits.
  rewrite !rdiv_fin by (intros E; lra).
  assert (Hle : T / u <= T / t) by now apply Qdiv_le_den.
  assert (H0 : 0 <= T / u) by (apply Qdiv_nonneg; lra).
  assert (H1 : 0 <= T / t) by (apply Qdiv_nonneg; lra).
  destruct (B64.maxCols R width) as [m | | |];
    destruct (rfin_nonneg R _ H0) as [[_ ->] | [Ho ->]];
    destruct (rfin_nonneg R _ H1) as [[Hb ->] | [_ ->]];
    cbn [Math_floor num_lt]; try congruence; try lra.
  rewrite !Qltb_lt. intros H.
  apply Qle_lt_trans with (2 := H). rewrite <- Zle_Qle.
  apply Qfloor_resp_le. now apply rnd_mono.
Qed.

(** For a duration that is not negative, the fallback 1 is selected exactly
    when the coarsest option, one minute, does not pass the test of
    line 18. *)
Theorem fallback_iff_minute_too_fine (width : number) (T : Q) :
  0 <= T ->
  (B64.timeOption R width (Fin T) = Fin 1 <->
   B64.fits R width (Fin T) (Fin 60000) = false).
Proof.
  intros HT. rewrite B64_first_fit. split.
  - destruct (find _ _) as [t |] eqn:E.
    + intros [= ->]. apply find_some in E. destruct E as [E _].
      now elim one_not_option.
    + intros _. apply (find_none _ _ E). unfold OPTIONS. simpl. tauto.
  - intros H. rewrite find_nowhere; [reflexivity |].
    intros t Ht. apply not_true_iff_false. intros C.
    destruct (OPTIONS_bounds t Ht) as [Hl Hh].
    rewrite (B64_fits_coarser width T t 60000) in H;
      [discriminate | exact HT | lra | exact Hh | exact C].
Qed.

(** Below [MIN_WIDTH] there is no room for a column. *)
Lemma B64_narrow (W T : Q) (z : Z) :
  W <= below_MIN_WIDTH -> 0 <= T -> (1 <= z)%Z ->
  B64.fits R (Fin W) (Fin T) (Fin (inject_Z z)) = false.
Proof.
  intros HW HT Hz.
  destruct (Qlt_le_dec 0 W) as [Hp | Hn]; [| now apply B64_no_room].
  unfold B64.fits, B64.maxCols, MIN_WIDTH.
  assert (Ht0 : 0 < inject_Z z)
    by (change (inject_Z 0 < inject_Z z); rewrite <- Zlt_Qlt; lia).
  rewrite !rdiv_fin by (intros E; lra).
  assert (Hq : 0 <= T / inject_Z z) by now apply Qdiv_nonneg.
  assert (Hw : 0 <= W / 100) by (apply Qdiv_nonneg; [reflexivity | lra]).
  assert (Hw1 : W / 100 <= below_MIN_WIDTH / 100)
    by (apply Qdiv_le_num; [reflexivity | exact HW]).
  assert (Hc : below_MIN_WIDTH / 100 < OVERFLOW) by reflexivity.
  destruct (rfin_nonneg R _ Hw) as [[Ho ->] | [Ho _]]; [| lra].
  destruct (rfin_nonneg R _ Hq) as [[_ ->] | [_ ->]];
    cbn [Math_floor num_lt]; [| reflexivity].
  apply not_true_iff_false. rewrite Qltb_lt, <- Zlt_Qlt.
  pose proof (Qfloor_nonneg _ (rnd_nonneg R _ Hq)).
  destruct (rnd_accurate R _ Hw Ho) as [_ Hu].
  assert (C : below_MIN_WIDTH / 100 + (u64 * (below_MIN_WIDTH / 100) + eta64)
              < 1) by reflexivity.
  assert (Hu' : u64 * (W / 100) <= u64 * (below_MIN_WIDTH / 100))
    by (apply Qmult_le_l; [reflexivity | exact Hw1]).
  assert (Qfloor (rnd R (W / 100)) < 1)%Z by (apply Qfloor_lt_1; lra).
  lia.
Qed.

(** A width under MIN_WIDTH, that is of at most 100 - 2^-46, leaves
    maxCols at 0 or less, so no option can pass the test for a duration that
    is not negative: the interval is the fallback 1 and the component asks
    for one line per millisecond, floor(totalTime) of them; it renders them
    when the count is within the array limits, and throws otherwise. *)
Theorem narrow_width_one_line_per_ms (W T : Q) :
  W <= below_MIN_WIDTH -> 0 <= T -> T < OVERFLOW -> representable R T ->
  B64.timeOption R (Fin W) (Fin T) = Fin 1 /\
  B64.numCols R (Fin W) (Fin T) = Fin (inject_Z (Qfloor T)) /\
  ((Qfloor T <= Z.min MAX_ARRAY_LENGTH engine_max)%Z ->
   exists ticks,
     B64.GridLines R engine_max (mkProps (Fin W) (Fin T)) = Ok ticks /\
     List.length ticks = Z.to_nat (Qfloor T)) /\
  ((Z.min MAX_ARRAY_LENGTH engine_max < Qfloor T)%Z ->
   B64.GridLines R engine_max (mkProps (Fin W) (Fin T)) = Throw RangeError).
Proof.
  intros HW H0 Ho Hr.
  assert (Et : B64.timeOption R (Fin W) (Fin T) = Fin 1).
  { rewrite B64_first_fit, find_nowhere; [reflexivity |].
    intros t Ht. destruct (OPTIONS_integers t Ht) as (z & -> & Hz).
    apply B64_narrow; [assumption .. | lia]. }
  destruct (rdiv_one R T H0 Ho Hr) as (a & Ea & Eq).
  assert (En : B64.numCols R (Fin W) (Fin T) = Fin (inject_Z (Qfloor T))).
  { rewrite <- (Qfloor_comp _ _ Eq). apply B64_numCols_floor.
    now rewrite Et. }
  repeat split; [exact Et | exact En | |].
  - intros Hn. eexists. split.
    + apply B64_render_ok with (n := Qfloor T); [exact En |].
      split; [now apply Qfloor_nonneg | exact Hn].
    + now rewrite length_map, length_seq.
  - intros Hn. apply B64_render_throw with (n := Qfloor T);
      [exact En | now right].
Qed.

(** When an option of the list is selected for a duration that is not
    negative, and maxCols is an integer at most one above the array limits,
    nothing is thrown and fewer than maxCols lines are rendered. *)
Theorem fitting_option_bounds_the_lines (W T : Q) (M : Z) :
  0 <= T ->
  B64.timeOption R (Fin W) (Fin T) <> Fin 1 ->
  B64.maxCols R (Fin W) = Fin (inject_Z M) ->
  (M <= Z.min MAX_ARRAY_LENGTH engine_max + 1)%Z ->
  exists ticks,
    B64.GridLines R engine_max (mkProps (Fin W) (Fin T)) = Ok ticks /\
    (Z.of_nat (List.length ticks) < M)%Z.
Proof.
  intros HT Hsel EM HM.
  destruct (B64_chosen R _ _ Hsel) as (t & Hin & Et & Hfit).
  destruct (OPTIONS_bounds t Hin) as [Hl Hh].
  unfold B64.fits in Hfit. rewrite EM in Hfit.
  assert (Hq : 0 <= T / t) by (apply Qdiv_nonneg; lra).
  assert (Ed : B64.rdiv R (Fin T) (Fin t) = B64.rfin R (T / t))
    by (apply rdiv_fin; intros E; lra).
  rewrite Ed in Hfit.
  destruct (rfin_nonneg R _ Hq) as [[_ Ef] | [_ Ef]]; rewrite Ef in Hfit, Ed;
    cbn [Math_floor num_lt] in Hfit; [| discriminate].
  rewrite Qltb_inject_Z in Hfit. apply Z.ltb_lt in Hfit.
  pose proof (Qfloor_nonneg _ (rnd_nonneg R _ Hq)) as Hn0.
  assert (En : B64.numCols R (Fin W) (Fin T) =
               Fin (inject_Z (Qfloor (rnd R (T / t)))))
    by (apply B64_numCols_floor; now rewrite Et).
  eexists. split.
  - apply (B64_render_ok R engine_max _ _ _ En). lia.
  - rewrite length_map, length_seq. lia.
Qed.

(** With [totalWidth = NaN] every comparison of line 18 is false: the
    interval is the fallback 1, the column width is [NaN], and every line
    and label that is rendered is positioned at [NaN]; for a duration that
    is not negative, floor(totalTime) of them are rendered when that count
    is within the array limits. *)
Theorem NaN_width_positions (T : Q) :
  B64.timeOption R NaN (Fin T) = Fin 1 /\
  B64.widthPerCol R NaN (Fin T) = NaN /\
  (forall ticks,
     B64.GridLines R engine_max (mkProps NaN (Fin T)) = Ok ticks ->
     Forall (fun k => line_left k = NaN /\ label_left k = NaN) ticks) /\
  (0 <= T -> T < OVERFLOW -> representable R T ->
   (Qfloor T <= Z.min MAX_ARRAY_LENGTH engine_max)%Z ->
   exists ticks,
     B64.GridLines R engine_max (mkProps NaN (Fin T)) = Ok ticks /\
     List.length ticks = Z.to_nat (Qfloor T)).
Proof.
  assert (Et : B64.timeOption R NaN (Fin T) = Fin 1).
  { rewrite B64_first_fit, find_nowhere; [reflexivity |].
    intros t _. unfold B64.fits, B64.maxCols. cbn [B64.rdiv num_div Math_floor].
    destruct (Math_floor _); reflexivity. }
  assert (Ew : B64.widthPerCol R NaN (Fin T) = NaN).
  { unfold B64.widthPerCol. destruct (B64.rdiv R _ _); reflexivity. }
  assert (Ep : forall x, B64.rmul R x NaN = NaN) by (intros []; reflexivity).
  repeat split; [exact Et | exact Ew | |].
  - intros ticks H.
    destruct (B64_render_inv R engine_max _ _ _ H) as (a & _ & _ & ->).
    apply Forall_forall. intros k Hk.
    apply in_map_iff in Hk. destruct Hk as (j & <- & _).
    cbn [B64.tick line_left label_left]. rewrite Ew, Ep. split; reflexivity.
  - intros H0 Ho Hr Hn.
    destruct (rdiv_one R T H0 Ho Hr) as (a & Ea & Eq).
    assert (En : B64.numCols R NaN (Fin T) = Fin (inject_Z (Qfloor T))).
    { rewrite <- (Qfloor_comp _ _ Eq). apply B64_numCols_floor.
      now rewrite Et. }
    eexists. split.
    + apply B64_render_ok with (n := Qfloor T); [exact En |].
      split; [now apply Qfloor_nonneg | exact Hn].
    + now rewrite length_map, length_seq.
Qed.
End B64_more.

Lemma fallback_iff_minute_too_fine_witness :
  B64.timeOption binary64 (Fin 100) (Fin 100000) = Fin 1 <->
  B64.fits binary64 (Fin 100) (Fin 100000) (Fin 60000) = false.
Proof.
  apply (fallback_iff_minute_too_fine binary64 (Fin 100) 100000).
  discriminate.
Defined.

Lemma narrow_width_one_line_per_ms_witness :
  B64.timeOption binary64 (Fin 50) (Fin 3) = Fin 1 /\
  exists ticks,
    B64.GridLines binary64 134217727 (mkProps (Fin 50) (Fin 3)) =
    Ok ticks /\
    List.length ticks = 3%nat.
Proof.
  assert (H := narrow_width_one_line_per_ms binary64 134217727 50 3).
  destruct H as (Et & _ & Hok & _).
  - vm_compute. discriminate.
  - discriminate.
  - reflexivity.
  - apply (rnd_int binary64 3). discriminate.
  - split; [exact Et |]. apply Hok. vm_compute. discriminate.
Defined.

Lemma fitting_option_bounds_the_lines_witness :
  exists ticks,
    B64.GridLines binary64 134217727 (mkProps (Fin 1000) (Fin 2000)) =
    Ok ticks /\
    (Z.of_nat (List.length ticks) < 10)%Z.
Proof.
  apply (fitting_option_bounds_the_lines binary64 134217727 1000 2000 10).
  - discriminate.
  - vm_compute. discriminate.
  - reflexivity.
  - vm_compute. discriminate.
Defined.

Lemma NaN_width_positions_witness :
  exists ticks,
    B64.GridLines binary64 134217727 (mkProps NaN (Fin 3)) = Ok ticks /\
    List.length ticks = 3%nat.
Proof.
  apply (proj2 (proj2 (proj2 (NaN_width_positions binary64 134217727 3)))).
  - discriminate.
  - reflexivity.
  - apply (rnd_int binary64 3). discriminate.
  - vm_compute. discriminate.
Defined.

(** ** The rounded computation and the binary64 evaluation

    With [binary64] for its rounding, the computation of module [B64] gives
    the values the kernel's binary64 arithmetic gives in module [IEEE]: the
    two agree at the inputs where rounding decides a claim, and at the
    scenarios of the specification. *)

Ltac agree_by_evaluation :=
  unfold agree; cbv zeta;
  repeat match goal with |- _ /\ _ => split end;
  vm_compute; reflexivity.

Example agree_641_500 : agree binary64 641 500 641 500.
Proof. agree_by_evaluation. Qed.

Example agree_1000_below_1000 :
  agree binary64 1000 (next_down 1000)
    1000 (1000 - (1 # (2 ^ 43)%positive)).
Proof. agree_by_evaluation. Qed.

Example agree_above_2_53 :
  agree binary64 999999999999999872 999999999999999744
    999999999999999872 999999999999999744.
Proof. agree_by_evaluation. Qed.

Example agree_rounded_up_maxCols :
  agree binary64 450359962737050560 270215977642230317056
    450359962737050560 270215977642230317056.
Proof. agree_by_evaluation. Qed.

Example agree_width_below_100 :
  agree binary64 900000000000003456 45000000000000172032
    900000000000003456 45000000000000172032.
Proof. agree_by_evaluation. Qed.

Example agree_1000_2000 : agree binary64 1000 2000 1000 2000.
Proof. agree_by_evaluation. Qed.

Example agree_100_100000 : agree binary64 100 100000 100 100000.
Proof. agree_by_evaluation. Qed.

Example agree_500_0 : agree binary64 500 0 500 0.
Proof. agree_by_evaluation. Qed.

Example agree_underflow :
  agree binary64 500 (next_down 0) 500 (- (1 # (2 ^ 1074)%positive)).
Proof. agree_by_evaluation. Qed.
